(** * The documentation compiler of tweedjs/docs (build/index.js)

    A shallow embedding of the build script: the regular expressions it
    applies, the string operations of the JavaScript runtime it relies on
    (exec, test, split, replace, slice, trim, toLowerCase), the highlighter
    switch, the Markdown renderer callbacks, the metadata parser and the
    [main] loop with its file-system effects.

    Strings are lists of code units; a code unit is an [ascii], so the
    model speaks about documents whose code units are below 256. *)

From Stdlib Require Import Ascii String List Arith Lia Bool.
From stdpp Require Import base option list gmap strings.

Local Open Scope list_scope.

(** ** Strings and character classes *)

Abbreviation str := (list ascii).

(** A string literal of the source. *)
Definition L (s : string) : str := list_ascii_of_string s.

(** The double quote character, code unit 34. *)
Definition dquote : ascii := ascii_of_nat 34.

(** The line feed, code unit 10. *)
Definition LF : ascii := ascii_of_nat 10.

Definition code (c : ascii) : nat := nat_of_ascii c.

Definition chr_eqb (a b : ascii) : bool := Ascii.eqb a b.

(** [\s] of ECMAScript, on code units below 256: TAB, LF, VT, FF, CR, SP and
    the no-break space. *)
Definition is_space (c : ascii) : bool :=
  let n := code c in
  ((9 <=? n) && (n <=? 13)) || (n =? 32) || (n =? 160).

(** [\w]: [A-Za-z0-9_]. *)
Definition is_word (c : ascii) : bool :=
  let n := code c in
  ((65 <=? n) && (n <=? 90)) || ((97 <=? n) && (n <=? 122))
  || ((48 <=? n) && (n <=? 57)) || (n =? 95).

(** [.]: every code unit but the line terminators (LF and CR below 256). *)
Definition is_dot (c : ascii) : bool :=
  let n := code c in
  negb ((n =? 10) || (n =? 13)).

(** [String.prototype.toLowerCase] on one code unit below 256: A-Z and the
    Latin-1 capitals (all of 192..222 except the multiplication sign). *)
Definition lower_char (c : ascii) : ascii :=
  let n := code c in
  if ((65 <=? n) && (n <=? 90))
     || ((192 <=? n) && (n <=? 222) && negb (n =? 215))
  then ascii_of_nat (n + 32) else c.

Definition toLowerCase (s : str) : str := map lower_char s.

(** ** Regular expressions

    The patterns of the script use literals, character classes, sequencing
    and the greedy quantifiers [*] and [+].  [ends r s] lists, in the
    priority order of a backtracking matcher, the remainders of [s] after
    every way [r] can match a prefix of [s]; the match the engine reports
    is the first one. *)

Inductive regex : Type :=
| Chr (p : ascii -> bool)
| Seq (r1 r2 : regex)
| Star (r : regex).

Definition Plus (r : regex) : regex := Seq r (Star r).

Definition lit_chr (c : ascii) : regex := Chr (chr_eqb c).

(** The regex of a literal, non-empty string. *)
Fixpoint Lit (c : ascii) (s : str) : regex :=
  match s with
  | [] => lit_chr c
  | d :: s' => Seq (lit_chr c) (Lit d s')
  end.

Definition LitS (s : string) : regex :=
  match L s with
  | [] => Star (Chr (fun _ => false))
  | c :: s' => Lit c s'
  end.

Section Ends.
Variable step : str -> list str.

(** Greedy iteration: first the matches that take one more round (a round
    that consumes nothing is rejected, as in ECMAScript), last the match
    that stops here. *)
Fixpoint ends_star (fuel : nat) (s : str) : list str :=
  match fuel with
  | O => [s]
  | S n =>
      flat_map (fun s' => if length s' <? length s then ends_star n s' else [])
               (step s) ++ [s]
  end.
End Ends.

Fixpoint ends (r : regex) (s : str) : list str :=
  match r with
  | Chr p => match s with
             | c :: s' => if p c then [s'] else []
             | [] => []
             end
  | Seq r1 r2 => flat_map (ends r2) (ends r1 s)
  | Star r1 => ends_star (ends r1) (S (length s)) s
  end.

(** Sticky match at the start of [s]: the remainder after the preferred
    match, if any. *)
Definition match_at (r : regex) (s : str) : option str := head (ends r s).

(** [RegExp.prototype.test] for a pattern without anchors: is there a match
    starting at some index. *)
Fixpoint test (r : regex) (s : str) : bool :=
  match match_at r s with
  | Some _ => true
  | None => match s with
            | [] => false
            | _ :: s' => test r s'
            end
  end.

(** Does [r] match the whole of [s] (some way of matching leaves nothing). *)
Definition full_match (r : regex) (s : str) : bool :=
  existsb (fun rest => match rest with [] => true | _ => false end) (ends r s).

(** ** String operations of the runtime *)

(** [String.prototype.split]: [m] is the sticky matcher of the separator.
    The scan visits each index [q] once; [cur] holds (reversed) the piece
    since the last split point [p], [skip] counts the code units that are
    still inside the separator matched last. *)
Fixpoint split_go (m : str -> option str) (s : str) (skip : nat) (cur : str)
  : list str :=
  match s with
  | [] => [rev cur]
  | c :: s' =>
      match skip with
      | S n => split_go m s' n cur
      | O =>
          match m s with
          | Some rest =>
              match length s - length rest with
              | O => match cur with
                     | [] => split_go m s' 0 [c]
                     | _ => rev cur :: split_go m s' 0 [c]
                     end
              | S n => rev cur :: split_go m s' n []
              end
          | None => split_go m s' 0 (c :: cur)
          end
      end
  end.

Definition js_split (m : str -> option str) (s : str) : list str :=
  match s with
  | [] => match m [] with Some _ => [] | None => [[]] end
  | _ => split_go m s 0 []
  end.

(** Sticky matcher of a literal string separator. *)
Fixpoint strip_prefix (pat s : str) : option str :=
  match pat, s with
  | [], _ => Some s
  | _ :: _, [] => None
  | a :: pat', b :: s' => if chr_eqb a b then strip_prefix pat' s' else None
  end.

Definition split_re (r : regex) (s : str) : list str := js_split (match_at r) s.
Definition split_str (sep : str) (s : str) : list str := js_split (strip_prefix sep) s.

(** [Array.prototype.join]. *)
Fixpoint join (sep : str) (l : list str) : str :=
  match l with
  | [] => []
  | [x] => x
  | x :: l' => x ++ sep ++ join sep l'
  end.

(** [String.prototype.replace] with a string pattern: only the first
    occurrence is replaced (the replacements of the script hold no [$]). *)
Fixpoint replace_first (pat rep s : str) : str :=
  match strip_prefix pat s with
  | Some rest => rep ++ rest
  | None => match s with
            | [] => []
            | c :: s' => c :: replace_first pat rep s'
            end
  end.

(** [String.prototype.slice(n)]. *)
Definition slice (n : nat) (s : str) : str := skipn n s.

(** [String.prototype.trim]. *)
Fixpoint trim_start (s : str) : str :=
  match s with
  | c :: s' => if is_space c then trim_start s' else s
  | [] => []
  end.

Definition trim (s : str) : str := rev (trim_start (rev (trim_start s))).

(** Strict equality of two strings. *)
Fixpoint str_eqb (a b : str) : bool :=
  match a, b with
  | [], [] => true
  | x :: a', y :: b' => chr_eqb x y && str_eqb a' b'
  | _, _ => false
  end.

(** ** Values and exceptions *)

(** What a [throw] carries: an [Error] made by the script, a [TypeError] of
    the runtime, or an exception object of a library (file system, YAML,
    highlighter), identified by its name and message. *)
Inductive exn : Type :=
| Error (message : str)
| TypeError (message : str)
| Foreign (name message : str).

Inductive result (A : Type) : Type :=
| Val (a : A)
| Throw (e : exn).
Arguments Val {A} a.
Arguments Throw {A} e.

Definition rbind {A B} (r : result A) (f : A -> result B) : result B :=
  match r with
  | Val a => f a
  | Throw e => Throw e
  end.

(** A string or [undefined] is an [option str]; this is its conversion to
    a string, as a template literal or [RegExp.prototype.test] performs it. *)
Definition to_string (v : option str) : str :=
  match v with
  | Some s => s
  | None => L "undefined"
  end.

(** ** The libraries the script calls *)

(** The grammars handed to Prism: [languages.tweed] as the current script
    sets it up (lines 494-577), [languages.bash] and [languages.markup],
    which no copy of the script changes; and [languages.tweed] as the two
    other copies set it up (lines 122-215 and lines 355-359), which are
    other grammars. *)
Inductive grammar : Type := g_tweed | g_bash | g_markup | g_tweed1 | g_tweed2.

(** What the lexer of [marked] finds in a document, in document order:
    a code block with the tag of its fence ([undefined] without one), a
    code span, or anything else, already rendered by the default renderer. *)
Inductive token : Type :=
| TCode (code : str) (lang : option str)
| TCodespan (code : str)
| TOther (html : str).

Record example : Type := mk_example {
  javascript : str;
  typescript : str;
  fiddle : bool
}.

(** The object written for one document. *)
Record document : Type := mk_document {
  doc_html : str;
  doc_examples : list example
}.

(** What [parse] returns. *)
Record parsed : Type := mk_parsed {
  headers : gmap str (option str);
  html : str;
  examples : list example
}.

Record subsection_entry : Type := mk_subsection {
  sub_headers : gmap str (option str);
  sub_slug : str;
  sub_url : str
}.

(** [name] is [undefined] when the index of the section has no [section]. *)
Record section_entry : Type := mk_section {
  name : option str;
  slug : str;
  description : str;
  subsections : list subsection_entry
}.

Record manifest : Type := mk_manifest {
  sections : list section_entry
}.

(** What the destructuring of a loaded per-section [_index.yaml] binds:
    [section] and [description], each a string or [undefined], and
    [subsections], [undefined] or the strings the loop over it visits. *)
Record section_yaml : Type := mk_section_yaml {
  y_section : option str;
  y_description : option str;
  y_subsections : option (list str)
}.

(** The pure library functions.  [prism] is [Prism.highlight] on a string;
    [prism_undefined] is what it does when handed [undefined].
    [yaml_root] is [yaml.load], the destructuring of its result and the
    start of the loop over [sections]: it throws for malformed YAML, for a
    result that cannot be destructured and for [sections] that cannot be
    iterated, all of which happen before the next call of the build.
    [yaml_section] is [yaml.load] and the destructuring of its result: it
    throws for malformed YAML and for a result that cannot be
    destructured.  The model covers indexes in which [section] and
    [description], when present, are strings, and [sections] and
    [subsections], when present, are sequences of strings.
    [msg_trim] and [msg_iterable] are the messages of the [TypeError]s of
    the runtime for [description.trim ()] when [description] is
    [undefined] and for the loop over [subsections] when that is
    [undefined]; [stringify_*] is [JSON.stringify (_, null, 2)]. *)
Record Libs : Type := {
  prism : str -> grammar -> str;
  prism_undefined : grammar -> result str;
  entities_decode : str -> str;
  lex : str -> list token;
  yaml_root : str -> result (list str);
  yaml_section : str -> result section_yaml;
  msg_trim : str;
  msg_iterable : str;
  resolve : str -> str -> str;
  dirDocs : str;
  dirDist : str;
  stringify_document : document -> str;
  stringify_manifest : manifest -> str;
  stack : exn -> str
}.

(** The file system: each call acts on the state of the world and may throw. *)
Record Sys : Type := {
  World : Type;
  fs_mkdirs : str -> World -> result unit * World;
  fs_readFile : str -> World -> result str * World;
  fs_writeFile : str -> str -> World -> result unit * World
}.

(** The calls the build makes, in order. *)
Inductive event : Type :=
| EMkdirs (path : str)
| ERead (path : str)
| EWrite (path data : str)
| ELog (text : str)
| EError (text : str).

(** ** The patterns of the script *)

(** [/tweed/] *)
Definition re_tweed : regex := LitS "tweed".
(** [/tweed\+fiddle/] *)
Definition re_tweed_fiddle : regex := LitS "tweed+fiddle".
(** [/\s*---\s*/] *)
Definition re_separator : regex :=
  Seq (Star (Chr is_space)) (Seq (LitS "---") (Star (Chr is_space))).
(** [/:\s*/] *)
Definition re_colon : regex := Seq (lit_chr ":") (Star (Chr is_space)).
(** The group of [/^(\w+:\s*.+\n)*/]. *)
Definition re_entry : regex :=
  Seq (Plus (Chr is_word))
      (Seq (lit_chr ":")
           (Seq (Star (Chr is_space))
                (Seq (Plus (Chr is_dot)) (lit_chr LF)))).
(** [/^(\w+:\s*.+\n)*/]; the anchor pins the match at index 0. *)
Definition re_metadata : regex := Star re_entry.
(** [/^\$\s*/]; the anchor pins the match at index 0. *)
Definition re_prompt : regex := Seq (lit_chr "$") (Star (Chr is_space)).

Definition placeholder : str := L "<example-slot></example-slot>".

Definition anchor_plain : str := L "<a href=" ++ [dquote] ++ L "http".
Definition anchor_blank : str :=
  L "<a target=" ++ [dquote] ++ L "_blank" ++ [dquote] ++ L " href="
    ++ [dquote] ++ L "http".
Definition shell_prompt : str :=
  L "<span class=" ++ [dquote] ++ L "shell-prompt" ++ [dquote] ++ L "></span>".

(** What [marked] does with an exception thrown while it lexes and parses
    a document, the callbacks of the renderer included: it appends a line
    to the message of the exception and, its option [silent] being off,
    throws the exception again. *)
Definition marked_note : str :=
  LF :: L "Please report this to https://github.com/chjj/marked.".

Definition marked_report (e : exn) : exn :=
  match e with
  | Error m => Error (m ++ marked_note)
  | TypeError m => TypeError (m ++ marked_note)
  | Foreign n m => Foreign n (m ++ marked_note)
  end.

Definition marked_catch {A} (r : result A) : result A :=
  match r with
  | Val a => Val a
  | Throw e => Throw (marked_report e)
  end.

Section Build.
Context (lb : Libs).

(** ** The highlighter *)

(** [prism (code, g)] for a [code] that may be [undefined]. *)
Definition prism_call (code : option str) (g : grammar) : result str :=
  match code with
  | Some s => Val (prism lb s g)
  | None => prism_undefined lb g
  end.

Definition shell_line (line : str) : str :=
  match match_at re_prompt line with
  | None => line
  | Some rest => shell_prompt ++ rest
  end.

Definition highlight (code : option str) (language : option str) : result str :=
  match language with
  | None => prism_call code g_tweed
  | Some l =>
      if str_eqb l (L "javascript") || str_eqb l (L "typescript")
      then prism_call code g_tweed
      else if str_eqb l (L "shell")
      then rbind (prism_call code g_bash)
                 (fun h => Val (join [LF] (map shell_line (split_str [LF] h))))
      else if str_eqb l (L "html")
      then prism_call code g_markup
      else Throw (Error (L "Cannot highlight " ++ l))
  end.

Definition codeBlock (code : option str) (language : option str) : result str :=
  rbind (highlight code language)
        (fun h => Val (L "<pre><code class=" ++ [dquote] ++ L "lang-"
                         ++ to_string language ++ [dquote] ++ L ">"
                         ++ h ++ L "</code></pre>")).

Definition codeSpan (code : str) : result str :=
  rbind (highlight (Some (entities_decode lb code)) None)
        (fun h => Val (L "<code>" ++ h ++ L "</code>")).

(** ** compileMarkdown *)

(** [renderer.code]: the callback reads and extends [examples]. *)
Definition renderer_code (code : str) (language : option str)
           (examples : list example) : result (str * list example) :=
  if test re_tweed (to_string language) then
    let parts := split_re re_separator code in
    rbind (codeBlock (parts !! 0) (Some (L "javascript"))) (fun js =>
    rbind (codeBlock (parts !! 1) (Some (L "typescript"))) (fun ts =>
    Val (placeholder,
         examples ++ [mk_example js ts
                        (test re_tweed_fiddle (to_string language))])))
  else
    rbind (codeBlock (Some code) language) (fun h => Val (h, examples)).

Definition render_token (t : token) (examples : list example)
  : result (str * list example) :=
  match t with
  | TCode code lang => renderer_code code lang examples
  | TCodespan code => rbind (codeSpan code) (fun h => Val (h, examples))
  | TOther h => Val (h, examples)
  end.

(** The parser of [marked]: the renderer is called token after token and
    the pieces are concatenated; an exception of a callback ends it. *)
Fixpoint render (ts : list token) (examples : list example)
  : result (str * list example) :=
  match ts with
  | [] => Val ([], examples)
  | t :: ts' =>
      rbind (render_token t examples) (fun '(h, ex1) =>
      rbind (render ts' ex1) (fun '(h', ex2) => Val (h ++ h', ex2)))
  end.

(** [marked (source, { renderer })], with the examples the callbacks
    have pushed. *)
Definition marked (source : str) : result (str * list example) :=
  marked_catch (render (lex lb source) []).

Definition compileMarkdown (source : str) : result (str * list example) :=
  rbind (marked source) (fun '(raw, examples) =>
  Val (replace_first anchor_plain anchor_blank raw, examples)).

(** ** parse *)

(** [/^(\w+:\s*.+\n)*/.exec (contents)] and the destructuring of its
    result: the matched text. *)
Definition exec_metadata (contents : str) : result str :=
  match match_at re_metadata contents with
  | Some rest => Val (firstn (length contents - length rest) contents)
  | None => Throw (TypeError (L "null is not iterable"))
  end.

Definition is_empty (s : str) : bool :=
  match s with [] => true | _ => false end.

(** The non-empty lines of the metadata block. *)
Definition metadata_lines (metadata : str) : list str :=
  List.filter (fun c => negb (is_empty c)) (split_str [LF] metadata).

(** [Object.assign (metadata, { [key]: value })] on a plain object: the
    assignment goes through the setter [__proto__] of [Object.prototype],
    which ignores a value that is no object, so that key is never stored. *)
Definition assign (m : gmap str (option str)) (key : str) (value : option str)
  : gmap str (option str) :=
  if str_eqb key (L "__proto__") then m else <[key := value]> m.

(** The callback of [reduce], on the pieces of one line. *)
Definition reduce_step (m : gmap str (option str)) (parts : list str)
  : result (gmap str (option str)) :=
  match parts !! 0 with
  | Some key => Val (assign m (toLowerCase key) (parts !! 1))
  | None => Throw (TypeError (L "Cannot read property 'toLowerCase' of undefined"))
  end.

Fixpoint reduce (m : gmap str (option str)) (l : list (list str))
  : result (gmap str (option str)) :=
  match l with
  | [] => Val m
  | parts :: l' => rbind (reduce_step m parts) (fun m' => reduce m' l')
  end.

Definition parse_headers (metadata : str) : result (gmap str (option str)) :=
  reduce ∅ (map (split_re re_colon) (metadata_lines metadata)).

(** [parse] after the file is read. *)
Definition parse_contents (contents : str) : result parsed :=
  rbind (exec_metadata contents) (fun metadata =>
  let markdown := slice (length metadata) contents in
  rbind (parse_headers metadata) (fun headers =>
  rbind (compileMarkdown markdown) (fun '(html, examples) =>
  Val (mk_parsed headers html examples)))).

(** ** Effects *)

Context (sys : Sys).

Definition state : Type := World sys * list event.

Definition M (A : Type) : Type := state -> result A * state.

Definition ret {A} (a : A) : M A := fun st => (Val a, st).

Definition bind {A B} (m : M A) (f : A -> M B) : M B :=
  fun st => match m st with
            | (Val a, st') => f a st'
            | (Throw e, st') => (Throw e, st')
            end.

Definition lift {A} (r : result A) : M A := fun st => (r, st).

Notation "'let*' x ':=' m 'in' k" := (bind m (fun x => k))
  (at level 10, x pattern, m at level 100, k at level 200).

Definition mkdirs (path : str) : M unit :=
  fun '(w, t) => let (r, w') := fs_mkdirs sys path w in (r, (w', t ++ [EMkdirs path])).

Definition readFile (path : str) : M str :=
  fun '(w, t) => let (r, w') := fs_readFile sys path w in (r, (w', t ++ [ERead path])).

Definition writeFile (path data : str) : M unit :=
  fun '(w, t) =>
    let (r, w') := fs_writeFile sys path data w in (r, (w', t ++ [EWrite path data])).

Definition console_log (text : str) : M unit :=
  fun '(w, t) => (Val tt, (w, t ++ [ELog text])).

Definition console_error (text : str) : M unit :=
  fun '(w, t) => (Val tt, (w, t ++ [EError text])).

(** [for (const x of l) body], the loop threading what the body mutates. *)
Fixpoint for_of {A S} (l : list A) (body : A -> S -> M S) (acc : S) : M S :=
  match l with
  | [] => ret acc
  | x :: l' => let* acc' := body x acc in for_of l' body acc'
  end.

Definition parse (path : str) : M parsed :=
  let* contents := readFile path in
  lift (parse_contents contents).

Definition url (path : str) : str :=
  replace_first (dirDist lb) (L "/docs") path.

(** The body of the inner loop: one subsection of a section. *)
Definition build_subsection (dirSectionDocs dirSectionDist : str)
           (subsection : str) (subs : list subsection_entry)
  : M (list subsection_entry) :=
  let srcFile := resolve lb dirSectionDocs (subsection ++ L ".md") in
  let distFile := resolve lb dirSectionDist (subsection ++ L ".json") in
  let* p := parse srcFile in
  let* _ := writeFile distFile
              (stringify_document lb (mk_document (html p) (examples p))) in
  ret (subs ++ [mk_subsection (headers p) subsection (url distFile)]).

(** [description.trim ()]: a [TypeError] of the runtime when the index
    has no [description]. *)
Definition trim_description (description : option str) : result str :=
  match description with
  | Some d => Val (trim d)
  | None => Throw (TypeError (msg_trim lb))
  end.

(** The start of [for (const subsection of subsections)]: a [TypeError]
    of the runtime when there is nothing to iterate. *)
Definition iterate (subsections : option (list str)) : result (list str) :=
  match subsections with
  | Some l => Val l
  | None => Throw (TypeError (msg_iterable lb))
  end.

(** The body of the outer loop: one section. *)
Definition build_section (section : str) (secs : list section_entry)
  : M (list section_entry) :=
  let dirSectionDocs := resolve lb (dirDocs lb) section in
  let dirSectionDist := resolve lb (dirDist lb) section in
  let* c := readFile (resolve lb dirSectionDocs (L "_index.yaml")) in
  let* y := lift (yaml_section lb c) in
  let* description := lift (trim_description (y_description y)) in
  let* _ := mkdirs dirSectionDist in
  let* subsections := lift (iterate (y_subsections y)) in
  let* subs := for_of subsections
                 (build_subsection dirSectionDocs dirSectionDist) [] in
  ret (secs ++ [mk_section (y_section y) section description subs]).

Definition main : M manifest :=
  let* _ := mkdirs (dirDist lb) in
  let* c := readFile (resolve lb (dirDocs lb) (L "_index.yaml")) in
  let* sections := lift (yaml_root lb c) in
  let* secs := for_of sections build_section [] in
  let manifest := mk_manifest secs in
  let manifestFile := resolve lb (dirDist lb) (L "manifest.json") in
  let manifestJSON := stringify_manifest lb manifest in
  let* _ := console_log manifestJSON in
  let* _ := writeFile manifestFile manifestJSON in
  ret manifest.

(** [main ().catch (({ stack }) => console.error (stack))] *)
Definition program : M unit :=
  fun st => match main st with
            | (Val _, st') => (Val tt, st')
            | (Throw e, st') => console_error (stack lb e) st'
            end.

End Build.

Arguments state : clear implicits.
Arguments M : clear implicits.

(** ** What the statements below speak about *)

(** [pat] occurs in [s]. *)
Definition contains (pat s : str) : Prop := exists u v, s = u ++ pat ++ v.

(** A code block whose tag makes [renderer.code] take the example branch. *)
Definition is_special (t : token) : bool :=
  match t with
  | TCode _ lang => test re_tweed (to_string lang)
  | _ => false
  end.

(** The tags of the special code blocks of a document, in order. *)
Fixpoint special_tags (ts : list token) : list (option str) :=
  match ts with
  | [] => []
  | TCode _ lang :: ts' =>
      if test re_tweed (to_string lang) then lang :: special_tags ts'
      else special_tags ts'
  | _ :: ts' => special_tags ts'
  end.

(** The tags [highlight] has a case for. *)
Definition recognized (language : option str) : bool :=
  match language with
  | None => true
  | Some l => str_eqb l (L "javascript") || str_eqb l (L "typescript")
              || str_eqb l (L "shell") || str_eqb l (L "html")
  end.

(** A token the renderer handles without reaching the [default] case. *)
Definition plain_token (t : token) : bool :=
  match t with
  | TCode _ lang => negb (test re_tweed (to_string lang)) && recognized lang
  | _ => true
  end.

(** Every code unit of [u] is in the class [p]. *)
Abbreviation all p u := (Forall (fun c : ascii => p c = true) u).

(** [matches r u]: the pattern [r] can match exactly the text [u]. *)
Inductive matches : regex -> str -> Prop :=
| matches_chr (p : ascii -> bool) (c : ascii) :
    p c = true -> matches (Chr p) [c]
| matches_seq (r1 r2 : regex) (u v : str) :
    matches r1 u -> matches r2 v -> matches (Seq r1 r2) (u ++ v)
| matches_star_nil (r : regex) :
    matches (Star r) []
| matches_star_cons (r : regex) (u v : str) :
    matches r u -> u <> [] -> matches (Star r) v -> matches (Star r) (u ++ v).

(** A line that reads [key: value], the pattern [\w+:\s*.+]. *)
Definition re_line : regex :=
  Seq (Plus (Chr is_word))
      (Seq (lit_chr ":") (Seq (Star (Chr is_space)) (Plus (Chr is_dot)))).

Definition metadata_line (l : str) : Prop := matches re_line l.

(** A line made of a key and a colon, with nothing but white space after
    them, the pattern [\w+:\s*]. *)
Definition re_key_only : regex :=
  Seq (Plus (Chr is_word)) (Seq (lit_chr ":") (Star (Chr is_space))).

Definition key_only (l : str) : Prop := matches re_key_only l.

(** The text of a run of lines, each ended by a line feed. *)
Definition block (ls : list str) : str :=
  concat (map (fun l => l ++ [LF]) ls).

(** [pat] occurs in [s] at index [i]. *)
Definition occurs_at (pat : str) (i : nat) (s : str) : Prop :=
  exists v, skipn i s = pat ++ v.

(** The markup [codeBlock] puts around highlighted code. *)
Definition pre_code (language h : str) : str :=
  L "<pre><code class=" ++ [dquote] ++ L "lang-" ++ language ++ [dquote]
    ++ L ">" ++ h ++ L "</code></pre>".

(** The [writeFile] calls of a trace. *)
Definition writes (t : list event) : list event :=
  List.filter (fun e => match e with EWrite _ _ => true | _ => false end) t.

(** What the build does for one subsection: the document read from the
    source file is parsed, [ev] is the write of its [html] and [examples]
    to the file of the subsection, [e] is the entry of the manifest. *)
Definition subsection_built (lb : Libs) (sys : Sys) (section : str)
           (e : subsection_entry) (ev : event) : Prop :=
  let srcFile := resolve lb (resolve lb (dirDocs lb) section) (sub_slug e ++ L ".md") in
  let distFile := resolve lb (resolve lb (dirDist lb) section) (sub_slug e ++ L ".json") in
  exists w w' contents p,
    fs_readFile sys srcFile w = (Val contents, w') /\
    parse_contents lb contents = Val p /\
    sub_headers e = headers p /\
    sub_url e = url lb distFile /\
    ev = EWrite distFile (stringify_document lb (mk_document (html p) (examples p))).

(** What the build does for one section: its index is read, [e] is its
    entry in the manifest, [evs] are the writes of its subsections. *)
Definition section_built (lb : Libs) (sys : Sys) (e : section_entry)
           (evs : list event) : Prop :=
  exists w w' contents y d,
    fs_readFile sys (resolve lb (resolve lb (dirDocs lb) (slug e)) (L "_index.yaml")) w
    = (Val contents, w') /\
    yaml_section lb contents = Val y /\
    name e = y_section y /\
    y_description y = Some d /\
    description e = trim d /\
    y_subsections y = Some (map sub_slug (subsections e)) /\
    Forall2 (subsection_built lb sys (slug e)) (subsections e) evs.

(** ** A sample installation

    A small instance of the libraries and of the file system, on which the
    build can be run. *)
Module Sample.

Definition fence (l : string) (body : string) : token :=
  TCode (L body) (Some (L l)).

Definition link (target : string) : str :=
  anchor_plain ++ L target ++ [dquote] ++ L ">x</a>".

(** Three documents, by their Markdown source. *)
Definition lexer (markdown : str) : list token :=
  let source := trim markdown in
  if str_eqb source (L "two examples") then
    [TOther (L "<p>intro</p>"); fence "tweed" "a --- b";
     TCodespan (L "x"); fence "tweed+fiddle" "c---d"]
  else if str_eqb source (L "python") then
    [TOther (L "<p>intro</p>"); fence "python" "print(1)"]
  else if str_eqb source (L "links") then
    [TOther (L "<p>"); TOther (link "://a.example"); fence "shell" "$ make";
     TOther (link "s://b.example")]
  else [TOther source].

(** What [marked] returns for the document "links" after its first
    [anchor_plain]. *)
Definition after_first_link : str :=
  L "://a.example" ++ [dquote] ++ L ">x</a>"
    ++ pre_code (L "shell") (shell_prompt ++ L "make")
    ++ link "s://b.example".

(** What [compileMarkdown] returns for the document "two examples". *)
Definition two_examples_html : str :=
  L "<p>intro</p>" ++ placeholder ++ L "<code>x</code>" ++ placeholder.

Definition two_examples : list example :=
  [ mk_example (pre_code (L "javascript") (L "a"))
               (pre_code (L "typescript") (L "b")) false;
    mk_example (pre_code (L "javascript") (L "c"))
               (pre_code (L "typescript") (L "d")) true ].

Definition lines (c : str) : list str :=
  List.filter (fun l => negb (is_empty l)) (split_str [LF] c).

(** The indexes of the sample: a section is a line with its name, a line
    with its description, then [subsections:] and a line for each
    subsection; [~] is a missing name or description, and an index of two
    lines has no subsections. *)
Definition field (l : str) : option str :=
  if str_eqb l (L "~") then None else Some l.

Definition libs : Libs := {|
  prism := fun s _ => s;
  prism_undefined := fun _ =>
    Throw (TypeError (L "Cannot read property 'length' of undefined"));
  entities_decode := fun s => s;
  lex := lexer;
  yaml_root := fun c => Val (lines c);
  yaml_section := fun c =>
    match lines c with
    | [n; d] => Val (mk_section_yaml (field n) (field d) None)
    | n :: d :: m :: subs =>
        if str_eqb m (L "subsections:")
        then Val (mk_section_yaml (field n) (field d) (Some subs))
        else Throw (Foreign (L "YAMLException") (L "bad indentation"))
    | _ => Throw (Foreign (L "YAMLException") (L "bad indentation"))
    end;
  msg_trim := L "Cannot read property 'trim' of undefined";
  msg_iterable := L "undefined is not iterable";
  resolve := fun a b => a ++ L "/" ++ b;
  dirDocs := L "/repo/docs";
  dirDist := L "/repo/dist";
  stringify_document := fun d => doc_html d;
  stringify_manifest := fun m => join (L ",") (map slug (sections m));
  stack := fun e =>
    match e with
    | Error m => L "Error: " ++ m
    | TypeError m => L "TypeError: " ++ m
    | Foreign n m => n ++ L ": " ++ m
    end
|}.

Fixpoint lookup_file (path : str) (w : list (str * str)) : option str :=
  match w with
  | [] => None
  | (p, c) :: w' => if str_eqb p path then Some c else lookup_file path w'
  end.

Definition sys : Sys := {|
  World := list (str * str);
  fs_mkdirs := fun _ w => (Val tt, w);
  fs_readFile := fun p w =>
    match lookup_file p w with
    | Some c => (Val c, w)
    | None => (Throw (Foreign (L "ENOENT") p), w)
    end;
  fs_writeFile := fun p d w => (Val tt, (p, d) :: w)
|}.

Definition text (ls : list string) : str :=
  concat (map (fun l => L l ++ [LF]) ls).

(** A tree of two sections, the second before the first alphabetically. *)
Definition disk : list (str * str) :=
  [ (L "/repo/docs/_index.yaml", text ["tour"; "guide"]);
    (L "/repo/docs/tour/_index.yaml", text ["Tour"; " A tour. "; "subsections:"; "welcome"; "hello"]);
    (L "/repo/docs/guide/_index.yaml", text ["Guide"; "How to."; "subsections:"; "cli"]);
    (L "/repo/docs/tour/welcome.md", text ["Title: Welcome"; ""] ++ L "two examples");
    (L "/repo/docs/tour/hello.md", text ["Title: Hello"; "Level: 1"; ""] ++ L "links");
    (L "/repo/docs/guide/cli.md", text ["Title: CLI"; ""] ++ L "plain text") ].

(** The same tree without its root index. *)
Definition disk_without_index : list (str * str) := tail disk.

(** Trees of one section, whose index has no [subsections], no
    [description], no [section]. *)
Definition disk_without_subsections : list (str * str) :=
  [ (L "/repo/docs/_index.yaml", text ["tour"]);
    (L "/repo/docs/tour/_index.yaml", text ["Tour"; "A tour."]) ].

Definition disk_without_description : list (str * str) :=
  [ (L "/repo/docs/_index.yaml", text ["tour"]);
    (L "/repo/docs/tour/_index.yaml", text ["Tour"; "~"; "subsections:"]) ].

Definition disk_without_name : list (str * str) :=
  [ (L "/repo/docs/_index.yaml", text ["tour"]);
    (L "/repo/docs/tour/_index.yaml", text ["~"; "A tour."; "subsections:"]) ].

Definition start (w : list (str * str)) : state sys := (w, []).

End Sample.

(** ** The calls of a run, without their data *)

Inductive call : Type :=
| CMkdirs (path : str)
| CRead (path : str)
| CWrite (path : str)
| CLog
| CError.

Definition call_of (e : event) : call :=
  match e with
  | EMkdirs p => CMkdirs p
  | ERead p => CRead p
  | EWrite p _ => CWrite p
  | ELog _ => CLog
  | EError _ => CError
  end.




(** A token the renderer can handle whatever Prism does with [undefined]:
    a special code block whose body splits into two parts or more, a code
    block with a tag the highlighter knows, or no code block. *)
Definition sound_token (t : token) : bool :=
  match t with
  | TCode code lang =>
      if test re_tweed (to_string lang)
      then 2 <=? length (split_re re_separator code)
      else recognized lang
  | _ => true
  end.

(** A string neither starts nor ends with white space. *)
Definition trimmed (s : str) : Prop :=
  (forall c r, s = c :: r -> is_space c = false) /\
  (forall r c, s = r ++ [c] -> is_space c = false).

(** ** The first copy of the script (build/index.js, lines 1-242)

    Its highlighter has no prompt for shell code and hands another
    [languages.tweed] to Prism, its code blocks carry no class, an example
    has no [fiddle] field, a code block is special only when its tag is
    [tweed], links are left alone, and the urls of the manifest are
    absolute. *)
Module Rev1.

Record example : Type := mk_example {
  javascript : str;
  typescript : str
}.

Section Build.
Context (lb : Libs).

Definition highlight (code : option str) (language : option str) : result str :=
  match language with
  | None => prism_call lb code g_tweed1
  | Some l =>
      if str_eqb l (L "javascript") || str_eqb l (L "typescript")
      then prism_call lb code g_tweed1
      else if str_eqb l (L "shell")
      then prism_call lb code g_bash
      else if str_eqb l (L "html")
      then prism_call lb code g_markup
      else Throw (Error (L "Cannot highlight " ++ l))
  end.

Definition codeBlock (code : option str) (language : option str) : result str :=
  rbind (highlight code language)
        (fun h => Val (L "<pre><code>" ++ h ++ L "</code></pre>")).

Definition codeSpan (code : str) : result str :=
  rbind (highlight (Some (entities_decode lb code)) None)
        (fun h => Val (L "<code>" ++ h ++ L "</code>")).

(** [language === 'tweed'] *)
Definition is_tweed (language : option str) : bool :=
  match language with
  | Some l => str_eqb l (L "tweed")
  | None => false
  end.

Definition renderer_code (code : str) (language : option str)
           (examples : list example) : result (str * list example) :=
  if is_tweed language then
    let parts := split_re re_separator code in
    rbind (codeBlock (parts !! 0) (Some (L "javascript"))) (fun js =>
    rbind (codeBlock (parts !! 1) (Some (L "typescript"))) (fun ts =>
    Val (placeholder, examples ++ [mk_example js ts])))
  else
    rbind (codeBlock (Some code) language) (fun h => Val (h, examples)).

Definition render_token (t : token) (examples : list example)
  : result (str * list example) :=
  match t with
  | TCode code lang => renderer_code code lang examples
  | TCodespan code => rbind (codeSpan code) (fun h => Val (h, examples))
  | TOther h => Val (h, examples)
  end.

Fixpoint render (ts : list token) (examples : list example)
  : result (str * list example) :=
  match ts with
  | [] => Val ([], examples)
  | t :: ts' =>
      rbind (render_token t examples) (fun '(h, ex1) =>
      rbind (render ts' ex1) (fun '(h', ex2) => Val (h ++ h', ex2)))
  end.

Definition compileMarkdown (source : str) : result (str * list example) :=
  marked_catch (render (lex lb source) []).

Definition url (path : str) : str :=
  replace_first (dirDist lb) (L "https://tweedjs.github.io/docs") path.

End Build.
End Rev1.

(** ** The second copy of the script (build/index.js, lines 243-370)

    Its highlighter knows [javascript] and [typescript] only and hands a
    third [languages.tweed] to Prism, the renderer returns highlighted
    code without markup around it, and code spans are left to the default
    renderer of [marked]. *)
Module Rev2.

Section Build.
Context (lb : Libs).

Definition highlight (code : option str) (language : option str) : result str :=
  match language with
  | Some l =>
      if str_eqb l (L "javascript") || str_eqb l (L "typescript")
      then prism_call lb code g_tweed2
      else Throw (Error (L "Cannot highlight " ++ l))
  | None => Throw (Error (L "Cannot highlight " ++ to_string None))
  end.

Definition renderer_code (code : str) (language : option str)
           (examples : list Rev1.example)
  : result (str * list Rev1.example) :=
  if Rev1.is_tweed language then
    let parts := split_re re_separator code in
    rbind (highlight (parts !! 0) (Some (L "javascript"))) (fun js =>
    rbind (highlight (parts !! 1) (Some (L "typescript"))) (fun ts =>
    Val (placeholder, examples ++ [Rev1.mk_example js ts])))
  else
    rbind (highlight (Some code) language) (fun h => Val (h, examples)).

Definition render_token (t : token) (examples : list Rev1.example)
  : result (str * list Rev1.example) :=
  match t with
  | TCode code lang => renderer_code code lang examples
  | TCodespan code => Val (L "<code>" ++ code ++ L "</code>", examples)
  | TOther h => Val (h, examples)
  end.

Fixpoint render (ts : list token) (examples : list Rev1.example)
  : result (str * list Rev1.example) :=
  match ts with
  | [] => Val ([], examples)
  | t :: ts' =>
      rbind (render_token t examples) (fun '(h, ex1) =>
      rbind (render ts' ex1) (fun '(h', ex2) => Val (h ++ h', ex2)))
  end.

Definition compileMarkdown (source : str) : result (str * list Rev1.example) :=
  marked_catch (render (lex lb source) []).

End Build.
End Rev2.

(** * Properties *)

(** ** The model at work *)

Example split_separator_lines :
  split_re re_separator (L "let a" ++ [LF] ++ L "---" ++ [LF] ++ L "let a: A")
  = [L "let a"; L "let a: A"].
Proof. reflexivity. Qed.

Example split_separator_dashes : split_re re_separator (L "----") = [[]; L "-"].
Proof. reflexivity. Qed.

Example split_colon_url :
  split_re re_colon (L "Url: http://x") = [L "Url"; L "http"; L "//x"].
Proof. reflexivity. Qed.

Example split_lines_trailing :
  split_str [LF] (L "a" ++ [LF] ++ L "b" ++ [LF]) = [L "a"; L "b"; []].
Proof. reflexivity. Qed.

Example exec_metadata_title :
  exec_metadata (L "Title: Tweed Inject" ++ [LF; LF] ++ L "Since Tweed")
  = Val (L "Title: Tweed Inject" ++ [LF]).
Proof. reflexivity. Qed.

Example highlight_shell_prompt :
  highlight Sample.libs (Some (L "$ npm install" ++ [LF] ++ L "done")) (Some (L "shell"))
  = Val (shell_prompt ++ L "npm install" ++ [LF] ++ L "done").
Proof. reflexivity. Qed.

Example test_tweed_tags :
  map (fun l => test re_tweed (to_string l))
      [Some (L "tweed"); Some (L "tweed+fiddle"); Some (L "typescript"); None]
  = [true; true; false; false].
Proof. reflexivity. Qed.

(** An index without [subsections] stops the build at the loop over them,
    after the directory of the section has been made. *)
Example section_without_subsections :
  main Sample.libs Sample.sys (Sample.start Sample.disk_without_subsections)
  = (Throw (TypeError (msg_iterable Sample.libs)),
     (Sample.disk_without_subsections,
      [EMkdirs (L "/repo/dist"); ERead (L "/repo/docs/_index.yaml");
       ERead (L "/repo/docs/tour/_index.yaml"); EMkdirs (L "/repo/dist/tour")])).
Proof. reflexivity. Qed.

(** An index without [description] stops it before that directory is made. *)
Example section_without_description :
  main Sample.libs Sample.sys (Sample.start Sample.disk_without_description)
  = (Throw (TypeError (msg_trim Sample.libs)),
     (Sample.disk_without_description,
      [EMkdirs (L "/repo/dist"); ERead (L "/repo/docs/_index.yaml");
       ERead (L "/repo/docs/tour/_index.yaml")])).
Proof. reflexivity. Qed.

(** An index without [section] does not stop it: the entry has no name. *)
Example section_without_name :
  fst (main Sample.libs Sample.sys (Sample.start Sample.disk_without_name))
  = Val (mk_manifest [mk_section None (L "tour") (L "A tour.") []]).
Proof. reflexivity. Qed.

(** [marked] adds its line to the message of what a callback throws. *)
Example marked_reports :
  compileMarkdown Sample.libs (L "python")
  = Throw (Error (L "Cannot highlight python" ++ [LF]
                    ++ L "Please report this to https://github.com/chjj/marked.")).
Proof. reflexivity. Qed.

(** ** Results *)

Lemma rbind_val {A B} (r : result A) (f : A -> result B) (b : B) :
  rbind r f = Val b -> exists a, r = Val a /\ f a = Val b.
Proof.
  destruct r as [a|e]; simpl; intros H; [eauto | discriminate].
Qed.

Lemma rbind_throw {A B} (r : result A) (f : A -> result B) (e : exn) :
  r = Throw e -> rbind r f = Throw e.
Proof. intros ->. reflexivity. Qed.

Lemma marked_catch_val {A} (r : result A) (a : A) :
  marked_catch r = Val a <-> r = Val a.
Proof. destruct r; simpl; split; congruence. Qed.

(** ** Strings *)

Lemma chr_eqb_eq (a b : ascii) : chr_eqb a b = true <-> a = b.
Proof. unfold chr_eqb. apply Ascii.eqb_eq. Qed.

Lemma chr_eqb_refl (a : ascii) : chr_eqb a a = true.
Proof. apply chr_eqb_eq. reflexivity. Qed.

Lemma str_eqb_eq (a b : str) : str_eqb a b = true <-> a = b.
Proof.
  revert b. induction a as [|x a IH]; intros [|y b]; simpl; split;
    try congruence; try reflexivity.
  - intros H. apply andb_true_iff in H as [H1 H2].
    apply chr_eqb_eq in H1. apply IH in H2. congruence.
  - intros H. injection H as -> ->. rewrite chr_eqb_refl. simpl.
    apply IH. reflexivity.
Qed.

Lemma strip_prefix_app (pat s : str) : strip_prefix pat (pat ++ s) = Some s.
Proof.
  induction pat as [|a pat IH]; simpl.
  - destruct s; reflexivity.
  - rewrite chr_eqb_refl. exact IH.
Qed.

Lemma strip_prefix_some (pat s r : str) :
  strip_prefix pat s = Some r -> s = pat ++ r.
Proof.
  revert s. induction pat as [|a pat IH]; intros s H.
  - destruct s; simpl in H; injection H as <-; reflexivity.
  - destruct s as [|b s]; simpl in H; [discriminate|].
    destruct (chr_eqb a b) eqn:E; [|discriminate].
    apply chr_eqb_eq in E. subst b. simpl. f_equal. apply IH. exact H.
Qed.

(** ** Literal patterns *)

Lemma ends_Lit (c : ascii) (p s : str) :
  ends (Lit c p) s = match strip_prefix (c :: p) s with
                     | Some r => [r]
                     | None => []
                     end.
Proof.
  revert c s. induction p as [|d p IH]; intros c s.
  - simpl. destruct s as [|b s]; [reflexivity|].
    destruct (chr_eqb c b); [|reflexivity]. destruct s; reflexivity.
  - cbn [Lit ends]. destruct s as [|b s]; [reflexivity|].
    cbn [lit_chr ends strip_prefix]. destruct (chr_eqb c b); [|reflexivity].
    cbn [flat_map]. rewrite IH, app_nil_r. reflexivity.
Qed.

Lemma match_at_Lit (c : ascii) (p s : str) :
  match_at (Lit c p) s = strip_prefix (c :: p) s.
Proof.
  unfold match_at. rewrite ends_Lit.
  destruct (strip_prefix (c :: p) s); reflexivity.
Qed.

(** [test] with a literal pattern is the search for a substring. *)
Lemma test_Lit (c : ascii) (p s : str) :
  test (Lit c p) s = true <-> contains (c :: p) s.
Proof.
  induction s as [|b s IH].
  - simpl. rewrite match_at_Lit. simpl. split; [discriminate|].
    intros (u & v & H). destruct u; discriminate.
  - cbn [test]. rewrite match_at_Lit.
    destruct (strip_prefix (c :: p) (b :: s)) as [r|] eqn:E.
    + split; [intros _|reflexivity].
      apply strip_prefix_some in E. exists [], r. exact E.
    + rewrite IH. split.
      * intros (u & v & ->). exists (b :: u), v. reflexivity.
      * intros (u & v & H). destruct u as [|b' u].
        -- simpl in H. rewrite H in E.
           change (c :: p ++ v) with ((c :: p) ++ v) in E.
           rewrite strip_prefix_app in E. discriminate.
        -- injection H as -> ->. exists u, v. reflexivity.
Qed.

Lemma test_tweed (s : str) : test re_tweed s = true <-> contains (L "tweed") s.
Proof. apply test_Lit. Qed.

Lemma test_tweed_fiddle (s : str) :
  test re_tweed_fiddle s = true <-> contains (L "tweed+fiddle") s.
Proof. apply test_Lit. Qed.

(** ** The highlighter and the renderer *)

Section Renderer.
Context (lb : Libs).

Lemma highlight_recognized (code : str) (language : option str) :
  recognized language = true ->
  exists h, highlight lb (Some code) language = Val h.
Proof.
  destruct language as [l|]; [|simpl; eauto].
  unfold recognized, highlight. intros H.
  destruct (str_eqb l (L "javascript") || str_eqb l (L "typescript")) eqn:E1;
    [simpl; eauto|].
  destruct (str_eqb l (L "shell")) eqn:E2; [simpl; eauto|].
  destruct (str_eqb l (L "html")) eqn:E3; [simpl; eauto|].
  discriminate.
Qed.

Lemma highlight_default (code : option str) (l : str) :
  recognized (Some l) = false ->
  highlight lb code (Some l) = Throw (Error (L "Cannot highlight " ++ l)).
Proof.
  unfold recognized, highlight. intros H.
  apply orb_false_iff in H as [H H4]. apply orb_false_iff in H as [H H3].
  rewrite H, H3, H4. reflexivity.
Qed.

Lemma renderer_code_special code lang exs h exs' :
  test re_tweed (to_string lang) = true ->
  renderer_code lb code lang exs = Val (h, exs') ->
  h = placeholder /\
  exists js ts,
    codeBlock lb (split_re re_separator code !! 0) (Some (L "javascript")) = Val js /\
    codeBlock lb (split_re re_separator code !! 1) (Some (L "typescript")) = Val ts /\
    exs' = exs ++ [mk_example js ts (test re_tweed_fiddle (to_string lang))].
Proof.
  intros T H. unfold renderer_code in H. rewrite T in H.
  apply rbind_val in H as (js & Hjs & H).
  apply rbind_val in H as (ts & Hts & H).
  injection H as <- <-. split; [reflexivity|]. eauto.
Qed.

Lemma renderer_code_plain code lang exs h exs' :
  test re_tweed (to_string lang) = false ->
  renderer_code lb code lang exs = Val (h, exs') ->
  exs' = exs /\ codeBlock lb (Some code) lang = Val h.
Proof.
  intros T H. unfold renderer_code in H. rewrite T in H.
  apply rbind_val in H as (h0 & Hh & H). injection H as <- <-. auto.
Qed.

Lemma renderer_code_unknown code l exs :
  test re_tweed l = false ->
  recognized (Some l) = false ->
  renderer_code lb code (Some l) exs = Throw (Error (L "Cannot highlight " ++ l)).
Proof.
  intros T R. unfold renderer_code. cbn [to_string]. rewrite T.
  unfold codeBlock. rewrite highlight_default by exact R. reflexivity.
Qed.

Lemma render_token_plain t exs :
  plain_token t = true -> exists h, render_token lb t exs = Val (h, exs).
Proof.
  destruct t as [code lang|code|h]; simpl; intros P; [| |eauto].
  - apply andb_true_iff in P as [T R]. apply negb_true_iff in T.
    unfold renderer_code. rewrite T. unfold codeBlock.
    destruct (highlight_recognized code lang R) as [h ->]. simpl. eauto.
  - unfold codeSpan. simpl. eauto.
Qed.

Lemma render_cons t ts exs h1 exs1 h2 exs2 :
  render_token lb t exs = Val (h1, exs1) ->
  render lb ts exs1 = Val (h2, exs2) ->
  render lb (t :: ts) exs = Val (h1 ++ h2, exs2).
Proof. intros H1 H2. simpl. rewrite H1. simpl. rewrite H2. reflexivity. Qed.

Lemma render_cons_inv t ts exs h exs2 :
  render lb (t :: ts) exs = Val (h, exs2) ->
  exists h1 exs1 h2,
    render_token lb t exs = Val (h1, exs1) /\
    render lb ts exs1 = Val (h2, exs2) /\ h = h1 ++ h2.
Proof.
  simpl. intros H. apply rbind_val in H as ([h1 exs1] & H1 & H).
  apply rbind_val in H as ([h2 exs2'] & H2 & H). injection H as <- <-.
  eauto 7.
Qed.

Lemma render_app ts1 ts2 exs h1 exs1 h2 exs2 :
  render lb ts1 exs = Val (h1, exs1) ->
  render lb ts2 exs1 = Val (h2, exs2) ->
  render lb (ts1 ++ ts2) exs = Val (h1 ++ h2, exs2).
Proof.
  revert exs h1. induction ts1 as [|t ts1 IH]; intros exs h1 H1 H2.
  - simpl in H1. injection H1 as <- <-. exact H2.
  - apply render_cons_inv in H1 as (ha & exsa & hb & Ha & Hb & ->).
    rewrite <- app_comm_cons, <- app_assoc.
    eapply render_cons; [exact Ha|]. eapply IH; eauto.
Qed.

(** The examples of a document are those of its special code blocks, one
    for each, with the flag computed from the tag. *)
Lemma render_examples ts exs h exs' :
  render lb ts exs = Val (h, exs') ->
  exists new,
    exs' = exs ++ new /\
    Forall2 (fun lang ex => fiddle ex = test re_tweed_fiddle (to_string lang))
            (special_tags ts) new.
Proof.
  revert exs h. induction ts as [|t ts IH]; intros exs h H.
  - simpl in H. injection H as <- <-. exists []. rewrite app_nil_r. auto.
  - apply render_cons_inv in H as (h1 & exs1 & h2 & H1 & H2 & ->).
    apply IH in H2 as (new & -> & F).
    destruct t as [code lang|code|o]; cbn [render_token] in H1.
    + cbn [special_tags]. destruct (test re_tweed (to_string lang)) eqn:T.
      * apply renderer_code_special in H1 as (_ & js & tsx & _ & _ & ->); [|exact T].
        eexists (_ :: new). rewrite <- app_assoc. split; [reflexivity|].
        constructor; [reflexivity | exact F].
      * apply renderer_code_plain in H1 as [-> _]; [|exact T]. eauto.
    + apply rbind_val in H1 as (x & _ & H1). injection H1 as <- <-. eauto.
    + injection H1 as <- <-. eauto.
Qed.

Lemma render_plain ts exs :
  Forall (fun t => plain_token t = true) ts ->
  exists h, render lb ts exs = Val (h, exs).
Proof.
  induction 1 as [|t ts P _ [h IH]].
  - simpl. eauto.
  - destruct (render_token_plain t exs P) as [h1 H1].
    exists (h1 ++ h). eapply render_cons; eauto.
Qed.

Lemma render_unknown_throws ts code l exs :
  In (TCode code (Some l)) ts ->
  test re_tweed l = false ->
  recognized (Some l) = false ->
  exists e, render lb ts exs = Throw e.
Proof.
  intros I T R. revert exs. induction ts as [|t ts IH]; intros exs; [destruct I|].
  simpl. destruct (render_token lb t exs) as [[h1 exs1]|e] eqn:E; [|simpl; eauto].
  simpl. destruct I as [->|I].
  - cbn [render_token] in E.
    rewrite renderer_code_unknown in E by assumption. discriminate.
  - destruct (IH I exs1) as [e ->]. simpl. eauto.
Qed.

Lemma render_unknown_first pre post code l exs h exs1 :
  render lb pre exs = Val (h, exs1) ->
  test re_tweed l = false ->
  recognized (Some l) = false ->
  render lb (pre ++ TCode code (Some l) :: post) exs
  = Throw (Error (L "Cannot highlight " ++ l)).
Proof.
  revert exs h. induction pre as [|t pre IH]; intros exs h H T R.
  - simpl in H. injection H as <- <-. simpl.
    rewrite renderer_code_unknown by assumption. reflexivity.
  - apply render_cons_inv in H as (ha & exsa & hb & Ha & Hb & ->).
    simpl. rewrite Ha. simpl. erewrite IH by eauto. reflexivity.
Qed.

Lemma compileMarkdown_val source html exs :
  compileMarkdown lb source = Val (html, exs) ->
  exists raw, render lb (lex lb source) [] = Val (raw, exs) /\
              html = replace_first anchor_plain anchor_blank raw.
Proof.
  unfold compileMarkdown, marked. intros H.
  apply rbind_val in H as ([raw exs0] & H1 & H). injection H as <- <-.
  apply (proj1 (marked_catch_val _ _)) in H1. exists raw.
  split; [exact H1 | reflexivity].
Qed.

End Renderer.

(** ** Replacing the first occurrence *)

Lemma replace_first_unfold (pat rep s : str) :
  replace_first pat rep s
  = match strip_prefix pat s with
    | Some rest => rep ++ rest
    | None => match s with
              | [] => []
              | c :: s' => c :: replace_first pat rep s'
              end
    end.
Proof. destruct s; reflexivity. Qed.

Lemma replace_first_at (pat rep pre post : str) :
  (forall i, i < length pre -> ~ occurs_at pat i (pre ++ pat ++ post)) ->
  replace_first pat rep (pre ++ pat ++ post) = pre ++ rep ++ post.
Proof.
  induction pre as [|c pre IH]; intros H.
  - cbn [app]. rewrite replace_first_unfold, strip_prefix_app. reflexivity.
  - cbn [app]. rewrite replace_first_unfold.
    destruct (strip_prefix pat (c :: pre ++ pat ++ post)) as [r|] eqn:E.
    + exfalso. apply (H 0); [simpl; lia|]. exists r.
      apply strip_prefix_some in E. exact E.
    + f_equal. apply IH. intros i Hi. specialize (H (S i)). simpl in H.
      apply H. lia.
Qed.

Lemma replace_first_absent (pat rep s : str) :
  (forall i, ~ occurs_at pat i s) -> replace_first pat rep s = s.
Proof.
  induction s as [|c s IH]; intros H.
  - simpl. destruct (strip_prefix pat []) as [r|] eqn:E; [|reflexivity].
    exfalso. apply (H 0). exists r. apply strip_prefix_some in E. exact E.
  - cbn [replace_first].
    destruct (strip_prefix pat (c :: s)) as [r|] eqn:E.
    + exfalso. apply (H 0). exists r. apply strip_prefix_some in E. exact E.
    + f_equal. apply IH. intros i. exact (H (S i)).
Qed.

Lemma codeBlock_string (lb : Libs) (code l : str) (g : grammar) :
  highlight lb (Some code) (Some l) = Val (prism lb code g) ->
  codeBlock lb (Some code) (Some l) = Val (pre_code l (prism lb code g)).
Proof. unfold codeBlock. intros ->. reflexivity. Qed.

(** ** Claims about compileMarkdown *)

(** C9.  In the HTML of a document only the first anchor whose href starts
    with http is rewritten to carry the target _blank: when the output of
    [marked] is
    [pre ++ anchor_plain ++ post] with no earlier occurrence of the
    pattern, [compileMarkdown] returns [pre ++ anchor_blank ++ post], so
    everything after the first link, later links included, is unchanged. *)
Theorem only_first_link_rewritten (lb : Libs) (source pre post : str)
        (exs : list example) :
  marked lb source = Val (pre ++ anchor_plain ++ post, exs) ->
  (forall i, i < length pre ->
             ~ occurs_at anchor_plain i (pre ++ anchor_plain ++ post)) ->
  compileMarkdown lb source = Val (pre ++ anchor_blank ++ post, exs).
Proof.
  intros Hm Hfirst. unfold compileMarkdown. rewrite Hm. cbn [rbind].
  rewrite replace_first_at by exact Hfirst. reflexivity.
Qed.

(** C4.  A code block whose tag holds no [tweed] and is none of
    [javascript], [typescript], [shell], [html] makes the renderer throw
    [Error ("Cannot highlight " + tag)]; a document with such a block does
    not compile, and when the tokens before the block render, what
    [compileMarkdown] throws is that error as [marked] passes it on, the
    line of [marked_note] added to its message. *)
Theorem unknown_tag_throws (lb : Libs) (source code l : str) :
  In (TCode code (Some l)) (lex lb source) ->
  ~ contains (L "tweed") l ->
  l <> L "javascript" -> l <> L "typescript" -> l <> L "shell" -> l <> L "html" ->
  (forall exs, renderer_code lb code (Some l) exs
               = Throw (Error (L "Cannot highlight " ++ l))) /\
  (exists e, compileMarkdown lb source = Throw e) /\
  (forall pre post h exs,
      lex lb source = pre ++ TCode code (Some l) :: post ->
      render lb pre [] = Val (h, exs) ->
      compileMarkdown lb source
      = Throw (Error (L "Cannot highlight " ++ l ++ marked_note))).
Proof.
  intros I NT N1 N2 N3 N4.
  assert (T : test re_tweed l = false).
  { destruct (test re_tweed l) eqn:E; [|reflexivity].
    apply test_tweed in E. contradiction. }
  assert (R : recognized (Some l) = false).
  { unfold recognized.
    repeat (apply orb_false_iff; split);
      (match goal with |- ?b = false => destruct b eqn:E; [|reflexivity] end);
      apply str_eqb_eq in E; contradiction. }
  split; [|split].
  - intros exs. apply renderer_code_unknown; assumption.
  - destruct (render_unknown_throws lb _ code l [] I T R) as [e He].
    exists (marked_report e). unfold compileMarkdown, marked.
    rewrite He. reflexivity.
  - intros pre post h exs Hlex Hpre. unfold compileMarkdown, marked.
    rewrite Hlex. erewrite render_unknown_first by eauto.
    cbn [marked_catch marked_report rbind]. rewrite <- app_assoc. reflexivity.
Qed.

(** C5.  A document without a special code block has no examples: whatever
    [compileMarkdown] returns for it carries the empty list, and it does
    return when every code block has a tag the highlighter knows. *)
Theorem no_special_block_no_examples (lb : Libs) (source : str) :
  Forall (fun t => is_special t = false) (lex lb source) ->
  (forall html exs, compileMarkdown lb source = Val (html, exs) -> exs = []) /\
  (Forall (fun t => plain_token t = true) (lex lb source) ->
   exists html, compileMarkdown lb source = Val (html, [])).
Proof.
  intros NS. split.
  - intros html exs H.
    apply compileMarkdown_val in H as (raw & H & _).
    apply render_examples in H as (new & -> & F).
    assert (E : special_tags (lex lb source) = []).
    { clear F. induction NS as [|t ts Ht _ IH]; [reflexivity|].
      destruct t as [c lang| |]; simpl in *; try exact IH.
      rewrite Ht. exact IH. }
    rewrite E in F. inversion F. reflexivity.
  - intros P. destruct (render_plain lb _ [] P) as [h Hh].
    unfold compileMarkdown, marked. rewrite Hh. simpl. eauto.
Qed.

(** C8.  The examples of a document correspond, in order, to its special
    code blocks, and the [fiddle] field of each is true exactly when the
    tag of its block holds [tweed+fiddle]; for the tag [tweed] it is
    false. *)
Theorem fiddle_flag (lb : Libs) (source html : str) (exs : list example) :
  compileMarkdown lb source = Val (html, exs) ->
  Forall2 (fun lang ex =>
             fiddle ex = true <-> contains (L "tweed+fiddle") (to_string lang))
          (special_tags (lex lb source)) exs /\
  (forall i ex, special_tags (lex lb source) !! i = Some (Some (L "tweed")) ->
                exs !! i = Some ex -> fiddle ex = false).
Proof.
  intros H. apply compileMarkdown_val in H as (raw & H & _).
  apply render_examples in H as (new & -> & F). simpl.
  split.
  - eapply Forall2_impl; [exact F|]. intros lang ex E. simpl in E.
    rewrite E. apply test_tweed_fiddle.
  - intros i ex Hi Hx.
    destruct (Forall2_lookup_l _ _ _ _ _ F Hi) as (ex' & Hx' & E).
    rewrite Hx in Hx'. injection Hx' as <-. rewrite E. reflexivity.
Qed.

Lemma only_first_link_rewritten_sample :
  marked Sample.libs (L "links")
  = Val (L "<p>" ++ anchor_plain ++ Sample.after_first_link, []) /\
  (forall i, i < length (L "<p>") ->
             ~ occurs_at anchor_plain i
               (L "<p>" ++ anchor_plain ++ Sample.after_first_link)) /\
  compileMarkdown Sample.libs (L "links")
  = Val (L "<p>" ++ anchor_blank ++ Sample.after_first_link, []).
Proof.
  assert (Hm : marked Sample.libs (L "links")
               = Val (L "<p>" ++ anchor_plain ++ Sample.after_first_link, []))
    by (vm_compute; reflexivity).
  assert (Hf : forall i, i < length (L "<p>") ->
                         ~ occurs_at anchor_plain i
                           (L "<p>" ++ anchor_plain ++ Sample.after_first_link)).
  { intros i Hi [v Hv].
    destruct i as [|[|[|i]]];
      [vm_compute in Hv; discriminate Hv ..| simpl in Hi; lia]. }
  exact (conj Hm (conj Hf (only_first_link_rewritten _ _ _ _ _ Hm Hf))).
Defined.

Lemma unknown_tag_throws_sample :
  In (TCode (L "print(1)") (Some (L "python"))) (lex Sample.libs (L "python")) /\
  ~ contains (L "tweed") (L "python") /\
  compileMarkdown Sample.libs (L "python")
  = Throw (Error (L "Cannot highlight python" ++ marked_note)).
Proof.
  assert (I : In (TCode (L "print(1)") (Some (L "python")))
                 (lex Sample.libs (L "python")))
    by (right; left; reflexivity).
  assert (NT : ~ contains (L "tweed") (L "python"))
    by (intros C; apply test_tweed in C; vm_compute in C; discriminate C).
  split; [exact I|]. split; [exact NT|].
  refine (proj2 (proj2 (unknown_tag_throws Sample.libs (L "python") (L "print(1)")
                          (L "python") I NT _ _ _ _))
                [TOther (L "<p>intro</p>")] [] (L "<p>intro</p>") [] _ _);
    try (intros E; vm_compute in E; discriminate E); reflexivity.
Defined.

Lemma no_special_block_no_examples_sample :
  Forall (fun t => is_special t = false) (lex Sample.libs (L "links")) /\
  exists html, compileMarkdown Sample.libs (L "links") = Val (html, []).
Proof.
  assert (E : lex Sample.libs (L "links")
              = [TOther (L "<p>"); TOther (Sample.link "://a.example");
                 Sample.fence "shell" "$ make";
                 TOther (Sample.link "s://b.example")]) by reflexivity.
  assert (NS : Forall (fun t => is_special t = false) (lex Sample.libs (L "links")))
    by (rewrite E; repeat constructor).
  split; [exact NS|].
  apply (proj2 (no_special_block_no_examples Sample.libs (L "links") NS)).
  rewrite E. repeat constructor.
Defined.

Lemma fiddle_flag_sample :
  compileMarkdown Sample.libs (L "two examples")
  = Val (Sample.two_examples_html, Sample.two_examples) /\
  Forall2 (fun lang ex =>
             fiddle ex = true <-> contains (L "tweed+fiddle") (to_string lang))
          [Some (L "tweed"); Some (L "tweed+fiddle")] Sample.two_examples.
Proof.
  assert (H : compileMarkdown Sample.libs (L "two examples")
              = Val (Sample.two_examples_html, Sample.two_examples))
    by (vm_compute; reflexivity).
  split; [exact H|].
  exact (proj1 (fiddle_flag Sample.libs _ _ _ H)).
Defined.

(** ** The matcher *)

Lemma ends_star_fuel (step : str -> list str) (n m : nat) (s : str) :
  length s < n -> length s < m -> ends_star step n s = ends_star step m s.
Proof.
  revert m s. induction n as [|n IH]; intros m s Hn Hm; [lia|].
  destruct m as [|m]; [lia|]. simpl. f_equal.
  apply flat_map_ext. intros s'.
  destruct (length s' <? length s) eqn:E; [|reflexivity].
  apply Nat.ltb_lt in E. apply IH; lia.
Qed.

(** One round of a starred pattern, without the fuel. *)
Lemma ends_Star (r : regex) (s : str) :
  ends (Star r) s
  = flat_map (fun s' => if length s' <? length s then ends (Star r) s' else [])
             (ends r s) ++ [s].
Proof.
  transitivity
    (flat_map (fun s' => if length s' <? length s
                         then ends_star (ends r) (length s) s' else [])
              (ends r s) ++ [s]); [reflexivity|].
  f_equal. apply flat_map_ext. intros s'.
  destruct (length s' <? length s) eqn:E; [|reflexivity].
  apply Nat.ltb_lt in E.
  change (ends (Star r) s') with (ends_star (ends r) (S (length s')) s').
  apply ends_star_fuel; lia.
Qed.

Lemma ends_Star_nonempty (r : regex) (s : str) : ends (Star r) s <> [].
Proof. rewrite ends_Star. intros H. apply app_eq_nil in H as [_ H]. discriminate. Qed.

(** Every remainder the matcher lists is what a match leaves. *)
Lemma ends_sound (r : regex) (s e : str) :
  In e (ends r s) -> exists u, s = u ++ e /\ matches r u.
Proof.
  revert s e. induction r as [p|r1 IH1 r2 IH2|r IH]; intros s e H.
  - destruct s as [|c s]; simpl in H; [destruct H|].
    destruct (p c) eqn:E; [|destruct H]. destruct H as [<-|[]].
    exists [c]. split; [reflexivity | constructor; exact E].
  - cbn [ends] in H. apply in_flat_map in H as (x & Hx & He).
    apply IH1 in Hx as (u & -> & Mu). apply IH2 in He as (v & -> & Mv).
    exists (u ++ v). rewrite <- app_assoc. split; [reflexivity|].
    constructor; assumption.
  - cbn [ends] in H. remember (S (length s)) as n eqn:En. clear En.
    revert s e H. induction n as [|n IHn]; intros s e H.
    + destruct H as [<-|[]]. exists []. split; [reflexivity | constructor].
    + cbn [ends_star] in H. apply in_app_or in H as [H|[<-|[]]].
      * apply in_flat_map in H as (x & Hx & He).
        destruct (length x <? length s) eqn:E; [|destruct He].
        apply Nat.ltb_lt in E.
        apply IH in Hx as (u & -> & Mu). apply IHn in He as (v & -> & Mv).
        exists (u ++ v). rewrite <- app_assoc. split; [reflexivity|].
        constructor; [exact Mu | | exact Mv].
        intros ->. simpl in E. lia.
      * exists []. split; [reflexivity | constructor].
Qed.

(** Every match is listed. *)
Lemma ends_complete (r : regex) (u : str) :
  matches r u -> forall e, In e (ends r (u ++ e)).
Proof.
  induction 1 as [p c E|r1 r2 u v _ IH1 _ IH2|r|r u v _ IH1 N _ IH2]; intros e.
  - simpl. rewrite E. left. reflexivity.
  - cbn [ends]. apply in_flat_map. exists (v ++ e). split.
    + rewrite <- app_assoc. apply IH1.
    + apply IH2.
  - simpl app. rewrite ends_Star. apply in_or_app. right. left. reflexivity.
  - rewrite ends_Star. apply in_or_app. left. apply in_flat_map.
    exists (v ++ e). split.
    + rewrite <- app_assoc. apply IH1.
    + assert (Hlt : (length (v ++ e) <? length ((u ++ v) ++ e)) = true).
      { apply Nat.ltb_lt. rewrite <- app_assoc, (length_app u).
        destruct u; [contradiction | simpl; lia]. }
      rewrite Hlt. apply IH2.
Qed.

Lemma full_match_matches (r : regex) (s : str) :
  full_match r s = true -> matches r s.
Proof.
  unfold full_match. intros H. apply existsb_exists in H as (e & He & E).
  destruct e; [|discriminate]. apply ends_sound in He as (u & -> & M).
  rewrite app_nil_r. exact M.
Qed.

(** The match the engine reports, when the pattern can match. *)
Lemma match_at_sound (r : regex) (s e : str) :
  match_at r s = Some e -> exists u, s = u ++ e /\ matches r u.
Proof.
  unfold match_at. intros H. apply ends_sound.
  destruct (ends r s); [discriminate|]. injection H as ->. left. reflexivity.
Qed.

Lemma match_at_none (r : regex) (s : str) :
  (forall u e, s = u ++ e -> ~ matches r u) -> match_at r s = None.
Proof.
  intros H. unfold match_at. destruct (ends r s) as [|e es] eqn:E; [reflexivity|].
  exfalso. destruct (ends_sound r s e) as (u & Hs & M); [rewrite E; left; reflexivity|].
  exact (H u e Hs M).
Qed.

Lemma match_at_some (r : regex) (u e : str) :
  matches r u -> exists e', match_at r (u ++ e) = Some e'.
Proof.
  intros M. pose proof (ends_complete r u M e) as I. unfold match_at.
  destruct (ends r (u ++ e)); [destruct I | simpl; eauto].
Qed.

(** When every match of [r] in [s] leaves the same remainder, that is the
    one reported. *)
Lemma match_at_unique (r : regex) (u e : str) :
  matches r u ->
  (forall u' e', u ++ e = u' ++ e' -> matches r u' -> e' = e) ->
  match_at r (u ++ e) = Some e.
Proof.
  intros M U. destruct (match_at_some r u e M) as [e' H]. rewrite H. f_equal.
  apply match_at_sound in H as (u' & Hs & M'). exact (U u' e' Hs M').
Qed.

(** A starred pattern whose rounds all consume something repeats the
    preferred match of its body as long as there is one. *)
Lemma match_at_Star (r : regex) (s : str) :
  (forall u, matches r u -> u <> []) ->
  match_at (Star r) s
  = match match_at r s with
    | Some e => match_at (Star r) e
    | None => Some s
    end.
Proof.
  intros N. unfold match_at at 1. rewrite ends_Star. unfold match_at at 1.
  destruct (ends r s) as [|e es] eqn:E; [reflexivity|].
  assert (P : (length e <? length s) = true).
  { destruct (ends_sound r s e) as (u & -> & M); [rewrite E; left; reflexivity|].
    apply Nat.ltb_lt. rewrite length_app. specialize (N u M).
    destruct u; [contradiction | simpl; lia]. }
  cbn [flat_map hd_error]. rewrite P. unfold match_at.
  pose proof (ends_Star_nonempty r e) as NE.
  destruct (ends (Star r) e); [contradiction | reflexivity].
Qed.

Lemma full_match_complete (r : regex) (s : str) :
  matches r s -> full_match r s = true.
Proof.
  intros M. unfold full_match. apply existsb_exists. exists []. split; [|reflexivity].
  pose proof (ends_complete r s M []) as I. rewrite app_nil_r in I. exact I.
Qed.

(** ** The shape of what the patterns match *)

Lemma matches_chr_inv (p : ascii -> bool) (u : str) :
  matches (Chr p) u <-> exists c, u = [c] /\ p c = true.
Proof.
  split.
  - inversion 1; subst. eauto.
  - intros (c & -> & E). constructor. exact E.
Qed.

Lemma matches_seq_inv (r1 r2 : regex) (u : str) :
  matches (Seq r1 r2) u <-> exists a b, u = a ++ b /\ matches r1 a /\ matches r2 b.
Proof.
  split.
  - inversion 1; subst. eauto.
  - intros (a & b & -> & Ha & Hb). constructor; assumption.
Qed.

Lemma matches_lit_chr (c : ascii) (u : str) : matches (lit_chr c) u <-> u = [c].
Proof.
  unfold lit_chr. rewrite matches_chr_inv. split.
  - intros (d & -> & E). apply chr_eqb_eq in E. subst. reflexivity.
  - intros ->. exists c. split; [reflexivity | apply chr_eqb_refl].
Qed.

Lemma matches_star_chr (p : ascii -> bool) (u : str) :
  matches (Star (Chr p)) u <-> all p u.
Proof.
  split.
  - intros M. remember (Star (Chr p)) as r eqn:Er.
    induction M as [| | |r u v Mu _ N Mv IH]; try discriminate.
    + constructor.
    + injection Er as ->. apply matches_chr_inv in Mu as (c & -> & E).
      simpl. constructor; [exact E | apply IH; reflexivity].
  - induction 1 as [|c u E _ IH]; [constructor|].
    change (c :: u) with ([c] ++ u).
    constructor; [constructor; exact E | discriminate | exact IH].
Qed.

Lemma matches_plus_chr (p : ascii -> bool) (u : str) :
  matches (Plus (Chr p)) u <-> u <> [] /\ all p u.
Proof.
  unfold Plus. rewrite matches_seq_inv. split.
  - intros (a & b & -> & Ha & Hb). apply matches_chr_inv in Ha as (c & -> & E).
    apply matches_star_chr in Hb. split; [discriminate|]. constructor; assumption.
  - intros [N A]. destruct u as [|c u]; [contradiction|].
    inversion A; subst. exists [c], u. split; [reflexivity|]. split.
    + constructor. assumption.
    + apply matches_star_chr. assumption.
Qed.

Lemma matches_entry (u : str) :
  matches re_entry u <->
  exists w sp z, u = w ++ ":"%char :: sp ++ z ++ [LF] /\
                 w <> [] /\ all is_word w /\ all is_space sp /\
                 z <> [] /\ all is_dot z.
Proof.
  unfold re_entry. split.
  - intros M.
    apply matches_seq_inv in M as (w & b & -> & Mw & M).
    apply matches_seq_inv in M as (c & b' & -> & Mc & M).
    apply matches_seq_inv in M as (sp & b'' & -> & Msp & M).
    apply matches_seq_inv in M as (z & l & -> & Mz & Ml).
    apply matches_plus_chr in Mw as [Nw Aw]. apply matches_lit_chr in Mc as ->.
    apply matches_star_chr in Msp. apply matches_plus_chr in Mz as [Nz Az].
    apply matches_lit_chr in Ml as ->. exists w, sp, z. auto 10.
  - intros (w & sp & z & -> & Nw & Aw & Asp & Nz & Az).
    apply matches_seq_inv. exists w, (":"%char :: sp ++ z ++ [LF]).
    split; [reflexivity|]. split; [apply matches_plus_chr; auto|].
    apply matches_seq_inv. exists [":"%char], (sp ++ z ++ [LF]).
    split; [reflexivity|]. split; [apply matches_lit_chr; reflexivity|].
    apply matches_seq_inv. exists sp, (z ++ [LF]).
    split; [reflexivity|]. split; [apply matches_star_chr; exact Asp|].
    apply matches_seq_inv. exists z, [LF].
    split; [reflexivity|]. split; [apply matches_plus_chr; auto|].
    apply matches_lit_chr. reflexivity.
Qed.

Lemma matches_line (l : str) :
  metadata_line l <->
  exists w sp z, l = w ++ ":"%char :: sp ++ z /\
                 w <> [] /\ all is_word w /\ all is_space sp /\
                 z <> [] /\ all is_dot z.
Proof.
  unfold metadata_line, re_line. split.
  - intros M.
    apply matches_seq_inv in M as (w & b & -> & Mw & M).
    apply matches_seq_inv in M as (c & b' & -> & Mc & M).
    apply matches_seq_inv in M as (sp & z & -> & Msp & Mz).
    apply matches_plus_chr in Mw as [Nw Aw]. apply matches_lit_chr in Mc as ->.
    apply matches_star_chr in Msp. apply matches_plus_chr in Mz as [Nz Az].
    exists w, sp, z. auto 10.
  - intros (w & sp & z & -> & Nw & Aw & Asp & Nz & Az).
    apply matches_seq_inv. exists w, (":"%char :: sp ++ z).
    split; [reflexivity|]. split; [apply matches_plus_chr; auto|].
    apply matches_seq_inv. exists [":"%char], (sp ++ z).
    split; [reflexivity|]. split; [apply matches_lit_chr; reflexivity|].
    apply matches_seq_inv. exists sp, z.
    split; [reflexivity|]. split; [apply matches_star_chr; exact Asp|].
    apply matches_plus_chr; auto.
Qed.

Lemma matches_key_only (l : str) :
  key_only l <->
  exists w sp, l = w ++ ":"%char :: sp /\ w <> [] /\ all is_word w /\ all is_space sp.
Proof.
  unfold key_only, re_key_only. split.
  - intros M.
    apply matches_seq_inv in M as (w & b & -> & Mw & M).
    apply matches_seq_inv in M as (c & sp & -> & Mc & Msp).
    apply matches_plus_chr in Mw as [Nw Aw]. apply matches_lit_chr in Mc as ->.
    apply matches_star_chr in Msp. exists w, sp. auto.
  - intros (w & sp & -> & Nw & Aw & Asp).
    apply matches_seq_inv. exists w, (":"%char :: sp).
    split; [reflexivity|]. split; [apply matches_plus_chr; auto|].
    apply matches_seq_inv. exists [":"%char], sp.
    split; [reflexivity|]. split; [apply matches_lit_chr; reflexivity|].
    apply matches_star_chr; exact Asp.
Qed.

Lemma matches_entry_line (l : str) :
  metadata_line l -> matches re_entry (l ++ [LF]).
Proof.
  intros M. apply matches_line in M as (w & sp & z & -> & H).
  apply matches_entry. exists w, sp, z. split; [|exact H].
  rewrite <- !app_assoc. simpl. rewrite <- app_assoc. reflexivity.
Qed.

Lemma matches_entry_nonempty (u : str) : matches re_entry u -> u <> [].
Proof.
  intros M. apply matches_entry in M as (w & sp & z & -> & _).
  destruct w; discriminate.
Qed.

(** ** Runs of characters *)

Section Runs.
Context (P : ascii -> Prop).

Lemma run_unique (a a' x x' : str) (c c' : ascii) :
  Forall P a -> Forall P a' -> ~ P c -> ~ P c' ->
  a ++ c :: x = a' ++ c' :: x' -> a = a' /\ c = c' /\ x = x'.
Proof.
  intros Ha. revert a'. induction Ha as [|d a Pd _ IH]; intros a' Ha' Nc Nc' E.
  - destruct a' as [|d' a']; simpl in E.
    + injection E as -> ->. auto.
    + injection E as -> _. inversion Ha'; subst. contradiction.
  - destruct a' as [|d' a']; simpl in E.
    + injection E as -> _. contradiction.
    + injection E as -> E. inversion Ha'; subst.
      destruct (IH a' ltac:(assumption) Nc Nc' E) as (-> & -> & ->). auto.
Qed.

Lemma run_prefix (a b x y : str) (c : ascii) :
  Forall P a -> Forall P b -> ~ P c ->
  a ++ c :: x = b ++ y -> exists a1, a = b ++ a1 /\ y = a1 ++ c :: x.
Proof.
  intros Ha Hb. revert a Ha. induction Hb as [|d b Pd _ IH]; intros a Ha Nc E.
  - exists a. simpl in *. auto.
  - destruct Ha as [|d' a Pd' Ha]; simpl in E.
    + injection E as -> _. contradiction.
    + injection E as -> E. destruct (IH a Ha Nc E) as (a1 & -> & ->).
      exists a1. auto.
Qed.

Lemma first_outside (t : str) :
  ~ Forall P t -> (forall c, P c \/ ~ P c) ->
  exists a c b, t = a ++ c :: b /\ Forall P a /\ ~ P c.
Proof.
  intros N D. induction t as [|d t IH]; [destruct N; constructor|].
  destruct (D d) as [Pd|Nd].
  - destruct IH as (a & c & b & -> & Ha & Nc).
    + intros A. apply N. constructor; assumption.
    + exists (d :: a), c, b. split; [reflexivity|]. split; [constructor|]; assumption.
  - exists [], d, t. split; [reflexivity|]. split; [constructor | exact Nd].
Qed.
End Runs.

Lemma no_LF_Forall (l : str) : ~ In LF l <-> Forall (fun c => c <> LF) l.
Proof.
  rewrite List.Forall_forall. split.
  - intros N c I ->. contradiction.
  - intros A I. exact (A LF I eq_refl).
Qed.

Lemma word_not_colon (c : ascii) : is_word c = true -> c <> ":"%char.
Proof. intros H ->. vm_compute in H. discriminate. Qed.

Lemma dot_not_LF (c : ascii) : is_dot c = true -> c <> LF.
Proof. intros H ->. vm_compute in H. discriminate. Qed.

Lemma colon_not_LF : ":"%char <> LF.
Proof. discriminate. Qed.

Lemma word_not_LF (c : ascii) : is_word c = true -> c <> LF.
Proof. intros H ->. vm_compute in H. discriminate. Qed.

(** ** The metadata block *)

Lemma block_cons (l : str) (ls : list str) : block (l :: ls) = l ++ LF :: block ls.
Proof. unfold block. simpl. rewrite <- app_assoc. reflexivity. Qed.

Lemma block_app (ls1 ls2 : list str) : block (ls1 ++ ls2) = block ls1 ++ block ls2.
Proof. unfold block. rewrite map_app, concat_app. reflexivity. Qed.

Lemma match_at_metadata_some (s : str) : exists r, match_at re_metadata s = Some r.
Proof.
  unfold match_at, re_metadata. pose proof (ends_Star_nonempty re_entry s) as N.
  destruct (ends (Star re_entry) s); [contradiction | simpl; eauto].
Qed.

Lemma match_at_metadata_step (s : str) :
  match_at re_metadata s
  = match match_at re_entry s with
    | Some e => match_at re_metadata e
    | None => Some s
    end.
Proof. apply match_at_Star. exact matches_entry_nonempty. Qed.

(** The matched text and the rest make up the contents. *)
Lemma exec_metadata_split (contents : str) :
  exists metadata markdown,
    match_at re_metadata contents = Some markdown /\
    contents = metadata ++ markdown /\
    exec_metadata contents = Val metadata /\
    slice (length metadata) contents = markdown.
Proof.
  destruct (match_at_metadata_some contents) as [r H].
  destruct (match_at_sound _ _ _ H) as (u & E & _).
  exists u, r. split; [exact H|]. split; [exact E|].
  unfold exec_metadata, slice. rewrite H. subst contents. split.
  - f_equal. rewrite length_app, Nat.add_sub.
    rewrite firstn_app, Nat.sub_diag, firstn_all. simpl. apply app_nil_r.
  - rewrite skipn_app, Nat.sub_diag, skipn_all. reflexivity.
Qed.

Lemma first_line_cut (l t u e : str) :
  ~ In LF l ->
  l ++ LF :: t = u ++ LF :: e ->
  (u = l /\ e = t) \/ (exists u1, u = l ++ LF :: u1 /\ t = u1 ++ LF :: e).
Proof.
  revert u. induction l as [|c l IH]; intros u N E.
  - destruct u as [|d u]; simpl in E.
    + injection E as <-. left. auto.
    + injection E as <- ->. right. exists u. auto.
  - destruct u as [|d u]; simpl in E.
    + injection E as -> _. destruct N. left. reflexivity.
    + injection E as <- E. destruct (IH u) as [[-> ->]|(u1 & -> & ->)].
      * intros I. apply N. right. exact I.
      * exact E.
      * left. auto.
      * right. exists u1. auto.
Qed.

Lemma block_cut (ls : list str) (rest u e : str) :
  Forall (fun l => ~ In LF l) ls ->
  block ls ++ rest = u ++ LF :: e ->
  (exists ls1 l ls2, ls = ls1 ++ l :: ls2 /\ u = block ls1 ++ l /\
                     e = block ls2 ++ rest) \/
  (exists u', u ++ [LF] = block ls ++ u' /\ rest = u' ++ e).
Proof.
  intros F. revert u. induction F as [|l ls N _ IH]; intros u E.
  - right. exists (u ++ [LF]). simpl in *. rewrite E, <- app_assoc. auto.
  - rewrite block_cons, <- app_assoc in E. simpl in E.
    destruct (first_line_cut _ _ _ _ N E) as [[-> ->]|(u1 & -> & E1)].
    + left. exists [], l, ls. auto.
    + destruct (IH u1 E1) as [(ls1 & l1 & ls2 & -> & -> & ->)|(u' & Hu & ->)].
      * left. exists (l :: ls1), l1, ls2. rewrite block_cons, <- app_assoc. auto.
      * right. exists u'. rewrite block_cons, <- !app_assoc. simpl.
        rewrite <- Hu. auto.
Qed.

(** The match of [re_metadata] reaches at least the end of every run of
    leading [key: value] lines. *)
Lemma metadata_covers (n : nat) :
  forall s ls rest,
    length s <= n ->
    s = block ls ++ rest ->
    Forall (fun l => metadata_line l /\ ~ In LF l) ls ->
    exists extra r, match_at re_metadata s = Some r /\ s = block ls ++ extra ++ r.
Proof.
  induction n as [|n IH]; intros s ls rest Hn Hs F.
  - destruct s; [|simpl in Hn; lia].
    destruct ls as [|l ls]; [|rewrite block_cons in Hs; destruct l; discriminate].
    destruct (match_at_metadata_some []) as [r H].
    destruct (match_at_sound _ _ _ H) as (u & E & _). exists u, r. auto.
  - destruct ls as [|l ls].
    + destruct (match_at_metadata_some s) as [r H].
      destruct (match_at_sound _ _ _ H) as (u & E & _). exists u, r. auto.
    + inversion F as [|? ? [Ml Nl] F']; subst.
      pose proof (matches_entry_line l Ml) as Me.
      assert (Es : block (l :: ls) ++ rest = (l ++ [LF]) ++ block ls ++ rest).
      { rewrite block_cons, <- !app_assoc. reflexivity. }
      destruct (match_at_some re_entry _ (block ls ++ rest) Me) as [e0 H0].
      rewrite <- Es in H0.
      destruct (match_at_sound _ _ _ H0) as (u & Eu & Mu).
      apply matches_entry in Mu as (w & sp & z & -> & _).
      set (u0 := w ++ ":"%char :: sp ++ z) in *.
      assert (Eu' : block (l :: ls) ++ rest = u0 ++ LF :: e0).
      { rewrite Eu. unfold u0. rewrite <- !app_assoc. simpl.
        rewrite <- !app_assoc. reflexivity. }
      rewrite match_at_metadata_step, H0.
      assert (Le : length e0 <= n).
      { assert (L1 : length (block (l :: ls) ++ rest) = length (u0 ++ LF :: e0))
          by (rewrite Eu'; reflexivity).
        rewrite (length_app u0) in L1. simpl in L1. lia. }
      destruct (block_cut (l :: ls) rest u0 e0) as
          [(ls1 & l1 & ls2 & Els & Hu & He)|(u' & Hu & Hr)].
      * constructor; [exact Nl|].
        eapply List.Forall_impl; [|exact F']. intros a [_ Na]. exact Na.
      * exact Eu'.
      * assert (F2 : Forall (fun l => metadata_line l /\ ~ In LF l) ls2).
        { rewrite Els in F. apply Forall_app in F as [_ F].
          inversion F; assumption. }
        destruct (IH e0 ls2 rest Le He F2) as (extra & r & Hr & Ee).
        exists extra, r. split; [exact Hr|].
        rewrite Eu', Els, block_app, block_cons, Hu.
        rewrite Ee at 1. rewrite <- !app_assoc. simpl. reflexivity.
      * destruct (match_at_metadata_some e0) as [r Hr'].
        destruct (match_at_sound _ _ _ Hr') as (x & Ex & _).
        exists (u' ++ x), r. split; [exact Hr'|].
        rewrite Eu'. change (u0 ++ LF :: e0) with (u0 ++ [LF] ++ e0).
        rewrite app_assoc, Hu, Ex at 1. rewrite <- !app_assoc. reflexivity.
Qed.

(** A [key: value] line with a value that is not white space is matched
    alone. *)
Lemma entry_exact (l tail : str) :
  metadata_line l -> ~ In LF l -> ~ key_only l ->
  match_at re_entry (l ++ LF :: tail) = Some tail.
Proof.
  intros Ml Nl Nk.
  change (l ++ LF :: tail) with (l ++ [LF] ++ tail). rewrite app_assoc.
  apply match_at_unique; [apply matches_entry_line; exact Ml|].
  intros u' e' E Mu.
  apply matches_line in Ml as (w & sp & z & -> & Nw & Aw & Asp & Nz & Az).
  apply matches_entry in Mu as (w' & sp' & z' & -> & Nw' & Aw' & Asp' & Nz' & Az').
  assert (Nsp : ~ all is_space (sp ++ z)).
  { intros A. apply Nk. apply matches_key_only. exists w, (sp ++ z). auto. }
  destruct (first_outside (fun c => is_space c = true) _ Nsp) as (a & c & b & Eab & Aa & Nc).
  { intros x. destruct (is_space x); auto. }
  rewrite <- !app_assoc in E. simpl in E. rewrite <- !app_assoc in E. simpl in E.
  rewrite (app_assoc sp z), Eab in E. rewrite <- !app_assoc in E. simpl in E.
  assert (Wc : ~ is_word ":"%char = true) by (intros H; discriminate H).
  destruct (run_unique (fun c => is_word c = true) _ _ _ _ _ _ Aw Aw' Wc Wc E)
    as (<- & _ & E1).
  destruct (run_prefix (fun c => is_space c = true) a sp' _ _ c Aa Asp' Nc E1)
    as (a1 & -> & E2).
  assert (N1 : Forall (fun c => c <> LF) (a1 ++ c :: b)).
  { apply no_LF_Forall. intros I. apply Nl. rewrite Eab.
    rewrite !in_app_iff in *. cbn [In] in *. rewrite !in_app_iff. cbn [In]. tauto. }
  assert (N2 : Forall (fun c => c <> LF) z').
  { eapply List.Forall_impl; [|exact Az']. intros x. apply dot_not_LF. }
  change (a1 ++ c :: b ++ LF :: tail) with (a1 ++ (c :: b) ++ LF :: tail) in E2.
  rewrite app_assoc in E2.
  assert (LL : ~ LF <> LF) by (intros H; exact (H eq_refl)).
  destruct (run_unique (fun c => c <> LF) _ _ _ _ _ _ N2 N1 LL LL E2)
    as (_ & _ & ->).
  reflexivity.
Qed.

(** No entry starts at a text whose first line is neither [key: value]
    nor a key alone, or which holds no line feed at all. *)
Lemma entry_fails (rest : str) :
  (~ In LF rest \/
   exists f rest', rest = f ++ LF :: rest' /\ ~ In LF f /\
                   ~ metadata_line f /\ ~ key_only f) ->
  match_at re_entry rest = None.
Proof.
  intros H. apply match_at_none. intros u e E Mu.
  apply matches_entry in Mu as (w & sp & z & -> & Nw & Aw & Asp & Nz & Az).
  destruct H as [N|(f & rest' & -> & Nf & Nm & Nk)].
  - apply N. rewrite E. rewrite <- !app_assoc. simpl. rewrite <- !app_assoc.
    apply in_or_app. right. right. apply in_or_app. right.
    apply in_or_app. right. left. reflexivity.
  - rewrite <- !app_assoc in E. simpl in E. rewrite <- !app_assoc in E. simpl in E.
    change (w ++ ":"%char :: sp ++ z ++ LF :: e)
      with (w ++ [":"%char] ++ sp ++ z ++ LF :: e) in E. rewrite app_assoc in E.
    assert (LL : ~ LF <> LF) by (intros H; exact (H eq_refl)).
    assert (Ff : Forall (fun c => c <> LF) f) by (apply no_LF_Forall; exact Nf).
    assert (Fw : Forall (fun c => c <> LF) (w ++ [":"%char])).
    { apply Forall_app. split.
      - eapply List.Forall_impl; [|exact Aw]. intros x. apply word_not_LF.
      - constructor; [exact colon_not_LF | constructor]. }
    destruct (run_prefix (fun c => c <> LF) _ _ _ _ _ Ff Fw LL E) as (f1 & -> & E1).
    assert (Nsp : ~ all is_space f1).
    { intros A. apply Nk. apply matches_key_only. exists w, f1.
      rewrite <- app_assoc. auto. }
    destruct (first_outside (fun c => is_space c = true) _ Nsp)
      as (a & c & b & -> & Aa & Nc).
    { intros x. destruct (is_space x); auto. }
    rewrite <- app_assoc in E1. simpl in E1.
    destruct (run_prefix (fun c => is_space c = true) a sp _ _ c Aa Asp Nc (eq_sym E1))
      as (a1 & -> & E2).
    assert (N1 : Forall (fun c => c <> LF) (a1 ++ c :: b)).
    { apply no_LF_Forall. intros I. apply Nf.
      rewrite !in_app_iff in *. cbn [In] in *. tauto. }
    assert (N2 : Forall (fun c => c <> LF) z).
    { eapply List.Forall_impl; [|exact Az]. intros x. apply dot_not_LF. }
    change (a1 ++ c :: b ++ LF :: rest') with (a1 ++ (c :: b) ++ LF :: rest') in E2.
    rewrite app_assoc in E2.
    destruct (run_unique (fun c => c <> LF) _ _ _ _ _ _ N2 N1 LL LL E2)
      as (-> & _ & _).
    apply Nm. apply matches_line. exists w, sp, (a1 ++ c :: b).
    split; [rewrite <- !app_assoc; reflexivity|].
    split; [exact Nw|]. split; [exact Aw|]. split; [exact Asp|].
    split; [destruct a1; discriminate | exact Az].
Qed.

Lemma metadata_exact (ls : list str) (rest : str) :
  Forall (fun l => metadata_line l /\ ~ In LF l /\ ~ key_only l) ls ->
  (~ In LF rest \/
   exists f rest', rest = f ++ LF :: rest' /\ ~ In LF f /\
                   ~ metadata_line f /\ ~ key_only f) ->
  match_at re_metadata (block ls ++ rest) = Some rest.
Proof.
  intros F R. induction F as [|l ls (Ml & Nl & Nk) _ IH].
  - simpl. rewrite match_at_metadata_step, entry_fails by exact R. reflexivity.
  - rewrite block_cons, <- app_assoc. simpl.
    rewrite match_at_metadata_step, entry_exact by assumption. exact IH.
Qed.

(** ** Claims about parse *)

(** C2, as stated, fails.  A last line without a line feed is no entry
    for the pattern, so a [key: value] line that ends the document stays in
    the Markdown.  And a key without a value makes the pattern run over
    the line feed: the heading that follows, no [key: value] line, is
    removed from the Markdown. *)
Lemma heading_line_stripped :
  (metadata_line (L "Title: X") /\ exec_metadata (L "Title: X") = Val []) /\
  exec_metadata (L "title:" ++ [LF] ++ L "# Heading" ++ [LF] ++ L "Body" ++ [LF])
  = Val (L "title:" ++ [LF] ++ L "# Heading" ++ [LF]) /\
  slice (length (L "title:" ++ [LF] ++ L "# Heading" ++ [LF]))
        (L "title:" ++ [LF] ++ L "# Heading" ++ [LF] ++ L "Body" ++ [LF])
  = L "Body" ++ [LF] /\
  ~ metadata_line (L "title:") /\
  ~ metadata_line (L "# Heading").
Proof.
  split; [split; [apply full_match_matches|]; reflexivity|].
  split; [reflexivity|]. split; [reflexivity|].
  split; intros M; apply full_match_complete in M; vm_compute in M; discriminate M.
Qed.

(** C2 (amended).  [parse] hands to the Markdown converter exactly what
    follows the text matched by the metadata pattern, and that text
    together with the Markdown is the document.  The matched text covers
    every run of leading line-feed-ended [key: value] lines, so none of
    them reaches the converter.  When no line of the run is a key with
    only white space after the colon, and what follows the run holds no
    line feed or starts with a line that is neither [key: value] nor such
    a bare key, the matched text is exactly the run and nothing else is
    removed. *)
Theorem metadata_block_stripped (lb : Libs) (contents : str) :
  exists metadata markdown,
    exec_metadata contents = Val metadata /\
    contents = metadata ++ markdown /\
    parse_contents lb contents
    = rbind (parse_headers metadata) (fun headers =>
      rbind (compileMarkdown lb markdown) (fun '(html, examples) =>
      Val (mk_parsed headers html examples))) /\
    (forall ls rest,
        Forall (fun l => metadata_line l /\ ~ In LF l) ls ->
        contents = block ls ++ rest ->
        exists extra, metadata = block ls ++ extra) /\
    (forall ls rest,
        Forall (fun l => metadata_line l /\ ~ In LF l /\ ~ key_only l) ls ->
        contents = block ls ++ rest ->
        (~ In LF rest \/
         exists f rest', rest = f ++ LF :: rest' /\ ~ In LF f /\
                         ~ metadata_line f /\ ~ key_only f) ->
        metadata = block ls /\ markdown = rest).
Proof.
  destruct (exec_metadata_split contents) as (metadata & markdown & Hm & Hc & He & Hs).
  exists metadata, markdown. split; [exact He|]. split; [exact Hc|]. split; [|split].
  - unfold parse_contents. rewrite He. cbn [rbind]. rewrite Hs. reflexivity.
  - intros ls rest F E.
    destruct (metadata_covers (length contents) contents ls rest (le_n _) E F)
      as (extra & r & Hr & Er).
    rewrite Hm in Hr. injection Hr as <-. exists extra.
    rewrite Hc in Er at 1. rewrite app_assoc in Er.
    apply app_inv_tail in Er. exact Er.
  - intros ls rest F E R.
    pose proof (metadata_exact ls rest F R) as H. rewrite <- E, Hm in H.
    injection H as ->. split; [|reflexivity].
    rewrite Hc in E. apply app_inv_tail in E. exact E.
Qed.

Lemma metadata_block_stripped_sample :
  exec_metadata (Sample.text ["Title: Hello"; "Level: 1"; ""] ++ L "links")
  = Val (block [L "Title: Hello"; L "Level: 1"]) /\
  parse_contents Sample.libs (Sample.text ["Title: Hello"; "Level: 1"; ""] ++ L "links")
  = rbind (parse_headers (block [L "Title: Hello"; L "Level: 1"])) (fun headers =>
    rbind (compileMarkdown Sample.libs (LF :: L "links")) (fun '(html, examples) =>
    Val (mk_parsed headers html examples))).
Proof.
  destruct (metadata_block_stripped Sample.libs
              (Sample.text ["Title: Hello"; "Level: 1"; ""] ++ L "links"))
    as (metadata & markdown & He & _ & Hp & _ & Hx).
  destruct (Hx [L "Title: Hello"; L "Level: 1"] (LF :: L "links")) as [-> ->].
  - repeat constructor;
      try (apply full_match_matches; reflexivity);
      try (intros I; vm_compute in I; intuition discriminate);
      try (intros K; apply full_match_complete in K; vm_compute in K; discriminate K).
  - reflexivity.
  - right. exists [], (L "links"). split; [reflexivity|]. split; [intros []|].
    split; intros K; apply full_match_complete in K; vm_compute in K; discriminate K.
  - exact (conj He Hp).
Defined.

(** ** Splitting *)

Lemma split_go_nonnil (m : str -> option str) (s : str) (skip : nat) (cur : str) :
  split_go m s skip cur <> [].
Proof.
  revert skip cur. induction s as [|c s IH]; intros skip cur; cbn [split_go];
    [discriminate|].
  destruct skip; [|apply IH].
  destruct (m (c :: s)) as [rest|]; [|apply IH].
  destruct (length (c :: s) - length rest); [|discriminate].
  destruct cur; [apply IH | discriminate].
Qed.

(** Where the separator matches nowhere, the scan only collects. *)
Lemma split_go_scan (m : str -> option str) (a t cur : str) :
  (forall a1 c a2, a = a1 ++ c :: a2 -> m (c :: a2 ++ t) = None) ->
  split_go m (a ++ t) 0 cur = split_go m t 0 (rev a ++ cur).
Proof.
  revert cur. induction a as [|c a IH]; intros cur H; [reflexivity|].
  cbn [app split_go]. rewrite (H [] c a eq_refl).
  rewrite IH.
  - cbn [rev]. rewrite <- app_assoc. reflexivity.
  - intros a1 d a2 ->. exact (H (c :: a1) d a2 eq_refl).
Qed.

Lemma split_go_skip (m : str -> option str) (u t cur : str) :
  split_go m (u ++ t) (length u) cur = split_go m t 0 cur.
Proof.
  induction u as [|c u IH]; [reflexivity|]. simpl. exact IH.
Qed.

(** At a separator the piece collected so far is closed. *)
Lemma split_go_at (m : str -> option str) (sep t cur : str) :
  sep <> [] ->
  m (sep ++ t) = Some t ->
  split_go m (sep ++ t) 0 cur = rev cur :: split_go m t 0 [].
Proof.
  intros N H. destruct sep as [|c sep]; [contradiction|].
  cbn [app split_go]. cbn [app] in H. rewrite H.
  replace (length (c :: sep ++ t) - length t) with (S (length sep))
    by (simpl; rewrite length_app; lia).
  rewrite split_go_skip. reflexivity.
Qed.

Lemma js_split_cons (m : str -> option str) (c : ascii) (s : str) :
  js_split m (c :: s) = split_go m (c :: s) 0 [].
Proof. reflexivity. Qed.

Lemma trim_start_length (s : str) : length (trim_start s) <= length s.
Proof.
  induction s as [|c s IH]; simpl; [lia|]. destruct (is_space c); simpl; lia.
Qed.

Lemma trim_start_run (sp y : str) :
  all is_space sp ->
  (forall c y', y = c :: y' -> is_space c = false) ->
  trim_start (sp ++ y) = y.
Proof.
  intros A H. induction A as [|c sp E _ IH]; simpl.
  - destruct y as [|c y]; [reflexivity|]. simpl. rewrite (H c y eq_refl). reflexivity.
  - rewrite E. exact IH.
Qed.

Lemma match_at_spaces (s : str) :
  match_at (Star (Chr is_space)) s = Some (trim_start s).
Proof.
  induction s as [|c s IH]; [reflexivity|].
  unfold match_at. rewrite ends_Star. cbn [trim_start].
  change (ends (Chr is_space) (c :: s)) with (if is_space c then [s] else []).
  destruct (is_space c); [|reflexivity].
  cbn [flat_map]. replace (length s <? length (c :: s)) with true
    by (symmetry; apply Nat.ltb_lt; simpl; lia).
  unfold match_at in IH.
  destruct (ends (Star (Chr is_space)) s); [discriminate IH | exact IH].
Qed.

Lemma match_at_colon (s : str) :
  match_at re_colon s
  = match s with
    | c :: s' => if chr_eqb ":"%char c then Some (trim_start s') else None
    | [] => None
    end.
Proof.
  destruct s as [|c s]; [reflexivity|].
  unfold match_at, re_colon.
  change (ends (Seq (lit_chr ":") (Star (Chr is_space))) (c :: s))
    with (flat_map (ends (Star (Chr is_space)))
                   (if chr_eqb ":"%char c then [s] else [])).
  destruct (chr_eqb ":"%char c); [|reflexivity].
  cbn [flat_map]. rewrite app_nil_r. apply match_at_spaces.
Qed.

Lemma colon_scan (a t : str) :
  Forall (fun c => c <> ":"%char) a ->
  forall a1 c a2, a = a1 ++ c :: a2 -> match_at re_colon (c :: a2 ++ t) = None.
Proof.
  intros F a1 c a2 ->. rewrite match_at_colon.
  apply Forall_app in F as [_ F]. inversion F as [|? ? N _]; subst.
  destruct (chr_eqb ":"%char c) eqn:E; [|reflexivity].
  apply chr_eqb_eq in E. congruence.
Qed.

(** The value of a line ends at its second colon. *)
Lemma split_colon_truncates (k sp v tail : str) :
  Forall (fun c => c <> ":"%char) k ->
  all is_space sp ->
  Forall (fun c => c <> ":"%char) v ->
  (forall c v', v = c :: v' -> is_space c = false) ->
  exists more, split_re re_colon (k ++ ":"%char :: sp ++ v ++ ":"%char :: tail)
               = k :: v :: more.
Proof.
  intros Fk Asp Fv Hv. unfold split_re.
  assert (E : js_split (match_at re_colon) (k ++ ":"%char :: sp ++ v ++ ":"%char :: tail)
              = split_go (match_at re_colon)
                         (k ++ ":"%char :: sp ++ v ++ ":"%char :: tail) 0 [])
    by (destruct k; reflexivity).
  rewrite E. rewrite split_go_scan by (apply colon_scan; exact Fk).
  change (":"%char :: sp ++ v ++ ":"%char :: tail)
    with ((":"%char :: sp) ++ v ++ ":"%char :: tail).
  rewrite split_go_at.
  - rewrite app_nil_r, rev_involutive.
    rewrite split_go_scan by (apply colon_scan; exact Fv).
    cbn [split_go]. rewrite match_at_colon, chr_eqb_refl.
    pose proof (trim_start_length tail) as Hl.
    destruct (length (":"%char :: tail) - length (trim_start tail)) as [|n] eqn:En;
      [simpl in En; lia|].
    rewrite app_nil_r, rev_involutive. eauto.
  - discriminate.
  - cbn [app]. rewrite match_at_colon, chr_eqb_refl. f_equal.
    apply trim_start_run; [exact Asp|].
    intros c y' Ey. destruct v as [|d v].
    + simpl in Ey. injection Ey as <- _. reflexivity.
    + simpl in Ey. injection Ey as <- _. apply (Hv d v eq_refl).
Qed.

(** Without a second colon the value is the rest of the line. *)
Lemma split_colon_whole (k sp v : str) :
  Forall (fun c => c <> ":"%char) k ->
  all is_space sp ->
  Forall (fun c => c <> ":"%char) v ->
  (forall c v', v = c :: v' -> is_space c = false) ->
  split_re re_colon (k ++ ":"%char :: sp ++ v) = [k; v].
Proof.
  intros Fk Asp Fv Hv. unfold split_re.
  assert (E : js_split (match_at re_colon) (k ++ ":"%char :: sp ++ v)
              = split_go (match_at re_colon) (k ++ ":"%char :: sp ++ v) 0 [])
    by (destruct k; reflexivity).
  rewrite E. rewrite split_go_scan by (apply colon_scan; exact Fk).
  change (":"%char :: sp ++ v) with ((":"%char :: sp) ++ v).
  rewrite split_go_at.
  - rewrite app_nil_r, rev_involutive.
    rewrite <- (app_nil_r v) at 1.
    rewrite split_go_scan by (apply colon_scan; exact Fv).
    cbn [split_go]. rewrite app_nil_r, rev_involutive. reflexivity.
  - discriminate.
  - cbn [app]. rewrite match_at_colon, chr_eqb_refl. f_equal.
    apply trim_start_run; assumption.
Qed.

Lemma split_colon_head (s : str) :
  exists key more, split_re re_colon s = key :: more.
Proof.
  unfold split_re. destruct s as [|c s].
  - exists [], []. reflexivity.
  - rewrite js_split_cons.
    pose proof (split_go_nonnil (match_at re_colon) (c :: s) 0 []) as N.
    destruct (split_go (match_at re_colon) (c :: s) 0 []) as [|key more];
      [contradiction | eauto].
Qed.

(** ** The headers *)

Lemma lower_char_idem (c : ascii) : lower_char (lower_char c) = lower_char c.
Proof. destruct c as [[] [] [] [] [] [] [] []]; reflexivity. Qed.

Lemma toLowerCase_idem (s : str) : toLowerCase (toLowerCase s) = toLowerCase s.
Proof.
  unfold toLowerCase. rewrite map_map. apply map_ext. exact lower_char_idem.
Qed.

Lemma assign_lookup (m : gmap str (option str)) (key : str) (value : option str) :
  key <> L "__proto__" -> assign m key value !! key = Some value.
Proof.
  intros N. unfold assign. destruct (str_eqb key (L "__proto__")) eqn:E.
  - apply str_eqb_eq in E. contradiction.
  - apply lookup_insert_eq.
Qed.

Lemma assign_lookup_ne (m : gmap str (option str)) (key k : str) (value : option str) :
  key <> k -> assign m key value !! k = m !! k.
Proof.
  intros N. unfold assign. destruct (str_eqb key (L "__proto__")); [reflexivity|].
  apply lookup_insert_ne. exact N.
Qed.

Lemma assign_keys (m : gmap str (option str)) (key k : str) (value v : option str) :
  assign m key value !! k = Some v -> k = key \/ m !! k = Some v.
Proof.
  unfold assign. destruct (str_eqb key (L "__proto__")); [auto|].
  destruct (decide (key = k)) as [->|N]; [auto|].
  rewrite lookup_insert_ne by exact N. auto.
Qed.

Lemma reduce_app (m : gmap str (option str)) (l1 l2 : list (list str)) :
  reduce m (l1 ++ l2) = rbind (reduce m l1) (fun m' => reduce m' l2).
Proof.
  revert m. induction l1 as [|parts l1 IH]; intros m; [reflexivity|].
  cbn [app reduce]. destruct (reduce_step m parts) as [m'|e]; [|reflexivity].
  cbn [rbind]. apply IH.
Qed.

Lemma reduce_total (m : gmap str (option str)) (l : list (list str)) :
  Forall (fun parts => parts <> []) l -> exists h, reduce m l = Val h.
Proof.
  intros F. revert m. induction F as [|parts l N _ IH]; intros m.
  - exists m. reflexivity.
  - destruct parts as [|key more]; [contradiction|].
    cbn [reduce reduce_step lookup list_lookup rbind]. apply IH.
Qed.

Lemma reduce_lower (l : list (list str)) (m h : gmap str (option str)) :
  reduce m l = Val h ->
  (forall k v, m !! k = Some v -> toLowerCase k = k) ->
  forall k v, h !! k = Some v -> toLowerCase k = k.
Proof.
  revert m. induction l as [|parts l IH]; intros m H Hm.
  - injection H as <-. exact Hm.
  - cbn [reduce] in H. apply rbind_val in H as (m' & Hs & H).
    apply (IH m' H). intros k v Hk.
    unfold reduce_step in Hs. destruct (parts !! 0) as [key|]; [|discriminate].
    injection Hs as <-. apply assign_keys in Hk as [->|Hk].
    + apply toLowerCase_idem.
    + exact (Hm k v Hk).
Qed.

Lemma reduce_keep (l : list (list str)) (m h : gmap str (option str)) (k : str) :
  reduce m l = Val h ->
  (forall parts, In parts l -> toLowerCase <$> (parts !! 0) <> Some k) ->
  h !! k = m !! k.
Proof.
  revert m. induction l as [|parts l IH]; intros m H N.
  - injection H as <-. reflexivity.
  - cbn [reduce] in H. apply rbind_val in H as (m' & Hs & H).
    rewrite (IH m' H) by (intros p I; apply N; right; exact I).
    unfold reduce_step in Hs. specialize (N parts (or_introl eq_refl)).
    destruct (parts !! 0) as [key|]; [|discriminate].
    injection Hs as <-. apply assign_lookup_ne. intros E. apply N.
    simpl. rewrite E. reflexivity.
Qed.

(** C10, as stated, fails.  The separator is a colon with or without
    white space after it, so a value is cut at a colon that no white space
    follows.  And the line [__proto__: x] is a line of the metadata block
    for which no header is bound. *)
Lemma value_cut_at_bare_colon :
  split_re re_colon (L "Url: http://x") = [L "Url"; L "http"; L "//x"] /\
  (exists h, parse_headers (L "Url: http://x" ++ [LF]) = Val h /\
             h !! L "url" = Some (Some (L "http"))) /\
  metadata_lines (L "__proto__: x" ++ [LF]) = [L "__proto__: x"] /\
  parse_headers (L "__proto__: x" ++ [LF]) = Val ∅.
Proof.
  split; [reflexivity|]. split; [|split; reflexivity].
  eexists. split; [reflexivity|]. vm_compute. reflexivity.
Qed.

(** C10 (amended).  The headers are always built.  Every key of the map
    is lowercase.  For every line of the metadata block, with [key] and
    [value] the first two pieces of the line split on a colon and the
    white space after it: when the lowercased key is not [__proto__] and
    no later line has the same lowercased key, the headers bind the
    lowercased key to that value ([undefined] when the line has a single
    piece).  The value is the text between the first and the second
    colon, white space after the first one skipped, so a value with a
    colon in it is cut there, whether white space follows that colon or
    not. *)
Theorem headers_binding (metadata : str) :
  exists h,
    parse_headers metadata = Val h /\
    (forall k v, h !! k = Some v -> toLowerCase k = k) /\
    (forall pre s post,
        metadata_lines metadata = pre ++ s :: post ->
        exists key more,
          split_re re_colon s = key :: more /\
          (toLowerCase key <> L "__proto__" ->
           (forall s', In s' post ->
                       toLowerCase <$> (split_re re_colon s' !! 0)
                       <> Some (toLowerCase key)) ->
           h !! toLowerCase key = Some (more !! 0))) /\
    (forall k sp v tail,
        Forall (fun c => c <> ":"%char) k ->
        all is_space sp ->
        Forall (fun c => c <> ":"%char) v ->
        (forall c v', v = c :: v' -> is_space c = false) ->
        split_re re_colon (k ++ ":"%char :: sp ++ v) = [k; v] /\
        exists more,
          split_re re_colon (k ++ ":"%char :: sp ++ v ++ ":"%char :: tail)
          = k :: v :: more).
Proof.
  unfold parse_headers.
  destruct (reduce_total ∅ (map (split_re re_colon) (metadata_lines metadata)))
    as [h Hh].
  { apply List.Forall_forall. intros parts I. apply in_map_iff in I as (s & <- & _).
    destruct (split_colon_head s) as (key & more & ->). discriminate. }
  exists h. split; [exact Hh|]. split; [|split].
  - apply (reduce_lower _ _ _ Hh). intros k v Hk. rewrite lookup_empty in Hk.
    discriminate.
  - intros pre s post E.
    destruct (split_colon_head s) as (key & more & Hs). exists key, more.
    split; [exact Hs|]. intros NP Hpost.
    rewrite E, map_app in Hh. cbn [map] in Hh. rewrite reduce_app in Hh.
    apply rbind_val in Hh as (m1 & _ & Hh). cbn [reduce] in Hh.
    apply rbind_val in Hh as (m2 & H2 & Hh).
    rewrite (reduce_keep _ _ _ _ Hh).
    + unfold reduce_step in H2. rewrite Hs in H2. cbn [lookup list_lookup] in H2.
      injection H2 as <-. apply assign_lookup. exact NP.
    + intros parts I. apply in_map_iff in I as (s' & <- & I'). exact (Hpost s' I').
  - intros k sp v tail Fk Asp Fv Hv. split.
    + apply split_colon_whole; assumption.
    + apply split_colon_truncates; assumption.
Qed.

Lemma headers_binding_sample :
  metadata_lines (Sample.text ["Title: Inject: a guide"; "LEVEL: 1"])
  = [] ++ L "Title: Inject: a guide" :: [L "LEVEL: 1"] /\
  exists h,
    parse_headers (Sample.text ["Title: Inject: a guide"; "LEVEL: 1"]) = Val h /\
    h !! L "title" = Some (Some (L "Inject")).
Proof.
  assert (E : metadata_lines (Sample.text ["Title: Inject: a guide"; "LEVEL: 1"])
              = [] ++ L "Title: Inject: a guide" :: [L "LEVEL: 1"]) by reflexivity.
  split; [exact E|].
  destruct (headers_binding (Sample.text ["Title: Inject: a guide"; "LEVEL: 1"]))
    as (h & Hh & _ & Hb & _).
  exists h. split; [exact Hh|].
  destruct (Hb _ _ _ E) as (key & more & Hs & Hk).
  assert (Ek : key = L "Title" /\ more = [L "Inject"; L "a guide"]).
  { change (split_re re_colon (L "Title: Inject: a guide"))
      with [L "Title"; L "Inject"; L "a guide"] in Hs.
    injection Hs as <- <-. split; reflexivity. }
  destruct Ek as [-> ->]. apply Hk.
  - intros N. vm_compute in N. discriminate N.
  - intros s' [<-|[]] N. vm_compute in N. discriminate N.
Defined.

(** ** The build *)

Section Effects.
Context (lb : Libs) (sys : Sys).

Lemma bind_val {A B} (m : M sys A) (f : A -> M sys B) st b st' :
  bind sys m f st = (Val b, st') ->
  exists a st1, m st = (Val a, st1) /\ f a st1 = (Val b, st').
Proof.
  unfold bind. destruct (m st) as [[a|e] st1]; [eauto | discriminate].
Qed.

Lemma bind_throw {A B} (m : M sys A) (f : A -> M sys B) st e st' :
  m st = (Throw e, st') -> bind sys m f st = (Throw e, st').
Proof. unfold bind. intros ->. reflexivity. Qed.

Lemma lift_val {A} (r : result A) st a st' :
  lift sys r st = (Val a, st') -> r = Val a /\ st = st'.
Proof. unfold lift. intros H. injection H as -> ->. auto. Qed.

Lemma trim_description_val (description : option str) (t : str) :
  trim_description lb description = Val t ->
  exists d, description = Some d /\ t = trim d.
Proof.
  destruct description as [d|]; simpl; intros H; [|discriminate H].
  injection H as <-. eauto.
Qed.

Lemma iterate_val (subsections : option (list str)) (l : list str) :
  iterate lb subsections = Val l -> subsections = Some l.
Proof.
  destruct subsections as [l'|]; simpl; intros H; [|discriminate H].
  injection H as ->. reflexivity.
Qed.

Lemma mkdirs_val path st st' :
  mkdirs sys path st = (Val tt, st') ->
  fs_mkdirs sys path (fst st) = (Val tt, fst st') /\
  snd st' = snd st ++ [EMkdirs path].
Proof.
  destruct st as [w t]. unfold mkdirs.
  destruct (fs_mkdirs sys path w) as [r w1] eqn:E. intros H. injection H as -> <-.
  simpl. auto.
Qed.

Lemma readFile_val path st c st' :
  readFile sys path st = (Val c, st') ->
  fs_readFile sys path (fst st) = (Val c, fst st') /\
  snd st' = snd st ++ [ERead path].
Proof.
  destruct st as [w t]. unfold readFile.
  destruct (fs_readFile sys path w) as [r w1] eqn:E. intros H. injection H as -> <-.
  simpl. auto.
Qed.

Lemma writeFile_val path data st st' :
  writeFile sys path data st = (Val tt, st') ->
  snd st' = snd st ++ [EWrite path data].
Proof.
  destruct st as [w t]. unfold writeFile.
  destruct (fs_writeFile sys path data w) as [r w1]. intros H. injection H as -> <-.
  reflexivity.
Qed.

Lemma console_log_val text st st' :
  console_log sys text st = (Val tt, st') -> snd st' = snd st ++ [ELog text].
Proof. destruct st as [w t]. unfold console_log. intros H. injection H as <-. reflexivity. Qed.

Lemma writes_app (t1 t2 : list event) : writes (t1 ++ t2) = writes t1 ++ writes t2.
Proof. unfold writes. apply List.filter_app. Qed.

Lemma build_subsection_val section sub subs st subs' st' :
  build_subsection lb sys (resolve lb (dirDocs lb) section)
                   (resolve lb (dirDist lb) section) sub subs st
  = (Val subs', st') ->
  exists e ev,
    subs' = subs ++ [e] /\ sub_slug e = sub /\
    subsection_built lb sys section e ev /\
    writes (snd st') = writes (snd st) ++ [ev].
Proof.
  unfold build_subsection, parse. intros H.
  apply bind_val in H as (p & st1 & Hp & H).
  apply bind_val in Hp as (c & st0 & Hr & Hp).
  unfold lift in Hp. injection Hp as Hp <-.
  apply bind_val in H as ([] & st2 & Hw & H).
  unfold ret in H. injection H as <- <-.
  apply readFile_val in Hr as [Hr Tr]. apply writeFile_val in Hw.
  eexists (mk_subsection (headers p) sub _), _.
  split; [reflexivity|]. split; [reflexivity|]. split.
  - exists (fst st), (fst st0), c, p. cbn [sub_slug sub_headers sub_url].
    split; [exact Hr|]. split; [exact Hp|]. auto.
  - rewrite Hw, Tr, !writes_app. cbn. rewrite app_nil_r. reflexivity.
Qed.

Lemma for_of_subsections section subs acc st out st' :
  for_of sys subs
         (build_subsection lb sys (resolve lb (dirDocs lb) section)
                           (resolve lb (dirDist lb) section)) acc st
  = (Val out, st') ->
  exists new evs,
    out = acc ++ new /\ map sub_slug new = subs /\
    Forall2 (subsection_built lb sys section) new evs /\
    writes (snd st') = writes (snd st) ++ evs.
Proof.
  revert acc st. induction subs as [|sub subs IH]; intros acc st H.
  - cbn [for_of] in H. unfold ret in H. injection H as <- <-.
    exists [], []. rewrite !app_nil_r. auto.
  - cbn [for_of] in H. apply bind_val in H as (acc1 & st1 & H1 & H).
    apply build_subsection_val in H1 as (e & ev & -> & Es & B & W1).
    apply IH in H as (new & evs & -> & Em & F & W).
    exists (e :: new), (ev :: evs). rewrite <- app_assoc. split; [reflexivity|].
    split; [cbn [map]; rewrite Es, Em; reflexivity|].
    split; [constructor; assumption|].
    rewrite W, W1, <- app_assoc. reflexivity.
Qed.

Lemma build_section_val section secs st secs' st' :
  build_section lb sys section secs st = (Val secs', st') ->
  exists e evs,
    secs' = secs ++ [e] /\ slug e = section /\
    section_built lb sys e evs /\
    writes (snd st') = writes (snd st) ++ evs.
Proof.
  unfold build_section. intros H.
  apply bind_val in H as (c & st1 & Hr & H).
  apply bind_val in H as (y & st2 & Hy & H).
  apply lift_val in Hy as [Hy <-].
  apply bind_val in H as (d' & st2 & Hd & H).
  apply lift_val in Hd as [Hd <-].
  apply trim_description_val in Hd as (d & Ed & ->).
  apply bind_val in H as ([] & st3 & Hm & H).
  apply bind_val in H as (declared & st4 & Hi & H).
  apply lift_val in Hi as [Hi <-].
  apply iterate_val in Hi.
  apply bind_val in H as (subs & st5 & Hs & H).
  unfold ret in H. injection H as <- <-.
  apply readFile_val in Hr as [Hr Tr]. apply mkdirs_val in Hm as [_ Tm].
  apply for_of_subsections in Hs as (new & evs & -> & Em & F & W).
  eexists (mk_section _ section _ new), evs.
  split; [reflexivity|]. split; [reflexivity|]. split.
  - exists (fst st), (fst st1), c, y, d. cbn [slug name description subsections app].
    rewrite Em. auto 10.
  - rewrite W, Tm, Tr, !writes_app. cbn. rewrite !app_nil_r. reflexivity.
Qed.

Lemma for_of_sections secs acc st out st' :
  for_of sys secs (build_section lb sys) acc st = (Val out, st') ->
  exists new evss,
    out = acc ++ new /\ map slug new = secs /\
    Forall2 (section_built lb sys) new evss /\
    writes (snd st') = writes (snd st) ++ concat evss.
Proof.
  revert acc st. induction secs as [|sec secs IH]; intros acc st H.
  - cbn [for_of] in H. unfold ret in H. injection H as <- <-.
    exists [], []. cbn. rewrite !app_nil_r. auto.
  - cbn [for_of] in H. apply bind_val in H as (acc1 & st1 & H1 & H).
    apply build_section_val in H1 as (e & evs & -> & Es & B & W1).
    apply IH in H as (new & evss & -> & Em & F & W).
    exists (e :: new), (evs :: evss). rewrite <- app_assoc. split; [reflexivity|].
    split; [cbn [map]; rewrite Es, Em; reflexivity|].
    split; [constructor; assumption|].
    rewrite W, W1, <- app_assoc. reflexivity.
Qed.

(** What a run of [main] that returns has done. *)
Lemma main_val st m st' :
  main lb sys st = (Val m, st') ->
  exists w1 w2 contents declared evss,
    fs_mkdirs sys (dirDist lb) (fst st) = (Val tt, w1) /\
    fs_readFile sys (resolve lb (dirDocs lb) (L "_index.yaml")) w1
    = (Val contents, w2) /\
    yaml_root lb contents = Val declared /\
    map slug (sections m) = declared /\
    Forall2 (section_built lb sys) (sections m) evss /\
    writes (snd st')
    = writes (snd st) ++ concat evss
        ++ [EWrite (resolve lb (dirDist lb) (L "manifest.json"))
                   (stringify_manifest lb m)].
Proof.
  unfold main. intros H.
  apply bind_val in H as ([] & st1 & Hm & H).
  apply bind_val in H as (c & st2 & Hr & H).
  apply bind_val in H as (declared & st3 & Hy & H).
  unfold lift in Hy. injection Hy as Hy <-.
  apply bind_val in H as (secs & st4 & Hs & H).
  apply bind_val in H as ([] & st5 & Hl & H).
  apply bind_val in H as ([] & st6 & Hw & H).
  unfold ret in H. injection H as <- <-.
  apply mkdirs_val in Hm as [Hm Tm]. apply readFile_val in Hr as [Hr Tr].
  apply console_log_val in Hl. apply writeFile_val in Hw.
  apply for_of_sections in Hs as (new & evss & -> & Em & F & W).
  exists (fst st1), (fst st2), c, declared, evss. cbn [sections app].
  split; [exact Hm|]. split; [exact Hr|]. split; [exact Hy|].
  split; [exact Em|]. split; [exact F|].
  rewrite Hw, Hl, !writes_app, W, Tr, Tm, !writes_app. cbn.
  rewrite !app_nil_r, <- ?app_assoc. reflexivity.
Qed.

End Effects.

(** ** Claims about main *)





(** C7.  An exception that ends [main] is caught by the handler of the
    program, which prints the stack of that exception with
    [console.error] and does nothing else; the program itself never
    throws. *)
Theorem errors_reach_console (lb : Libs) (sys : Sys) (st : state sys) :
  (forall e st', main lb sys st = (Throw e, st') ->
                 program lb sys st
                 = (Val tt, (fst st', snd st' ++ [EError (stack lb e)]))) /\
  (forall m st', main lb sys st = (Val m, st') -> program lb sys st = (Val tt, st')) /\
  exists st', program lb sys st = (Val tt, st').
Proof.
  unfold program. destruct (main lb sys st) as [[m|e] [w t]]; split; [|split| |split].
  - intros e st' H. discriminate H.
  - intros m' st' H. injection H as _ <-. reflexivity.
  - eauto.
  - intros e' st' H. injection H as <- <-. reflexivity.
  - intros m st' H. discriminate H.
  - simpl. eauto.
Qed.

Lemma errors_reach_console_sample :
  main Sample.libs Sample.sys (Sample.start Sample.disk_without_index)
  = (Throw (Foreign (L "ENOENT") (L "/repo/docs/_index.yaml")),
     (Sample.disk_without_index,
      [EMkdirs (L "/repo/dist"); ERead (L "/repo/docs/_index.yaml")])) /\
  program Sample.libs Sample.sys (Sample.start Sample.disk_without_index)
  = (Val tt,
     (Sample.disk_without_index,
      [EMkdirs (L "/repo/dist"); ERead (L "/repo/docs/_index.yaml");
       EError (L "ENOENT: /repo/docs/_index.yaml")])).
Proof.
  assert (H : main Sample.libs Sample.sys (Sample.start Sample.disk_without_index)
              = (Throw (Foreign (L "ENOENT") (L "/repo/docs/_index.yaml")),
                 (Sample.disk_without_index,
                  [EMkdirs (L "/repo/dist"); ERead (L "/repo/docs/_index.yaml")])))
    by (vm_compute; reflexivity).
  split; [exact H|].
  exact (proj1 (errors_reach_console Sample.libs Sample.sys
                  (Sample.start Sample.disk_without_index)) _ _ H).
Defined.

(** ** The separator of the two variants *)

Lemma flat_map_spaces (f : str -> list str) (s : str) :
  (forall c x, is_space c = true -> f (c :: x) = []) ->
  flat_map f (ends (Star (Chr is_space)) s) = f (trim_start s).
Proof.
  intros H. induction s as [|c s IH].
  - cbn. apply app_nil_r.
  - rewrite ends_Star. cbn [trim_start].
    change (ends (Chr is_space) (c :: s)) with (if is_space c then [s] else []).
    destruct (is_space c) eqn:E.
    + cbn [flat_map]. replace (length s <? length (c :: s)) with true
        by (symmetry; apply Nat.ltb_lt; simpl; lia).
      rewrite app_nil_r, flat_map_app, IH. cbn [flat_map].
      rewrite (H c s E). rewrite !app_nil_r. reflexivity.
    + cbn [flat_map app]. apply app_nil_r.
Qed.

Lemma match_at_separator (s : str) :
  match_at re_separator s
  = match strip_prefix (L "---") (trim_start s) with
    | Some y => Some (trim_start y)
    | None => None
    end.
Proof.
  unfold match_at, re_separator.
  change (ends (Seq (Star (Chr is_space)) (Seq (LitS "---") (Star (Chr is_space)))) s)
    with (flat_map (ends (Seq (LitS "---") (Star (Chr is_space))))
                   (ends (Star (Chr is_space)) s)).
  rewrite flat_map_spaces.
  - change (ends (Seq (LitS "---") (Star (Chr is_space))) (trim_start s))
      with (flat_map (ends (Star (Chr is_space)))
                     (ends (Lit "-"%char (L "--")) (trim_start s))).
    rewrite ends_Lit.
    change ("-"%char :: L "--") with (L "---").
    destruct (strip_prefix (L "---") (trim_start s)) as [y|]; [|reflexivity].
    cbn [flat_map]. rewrite app_nil_r. apply match_at_spaces.
  - intros c x E.
    change (ends (Seq (LitS "---") (Star (Chr is_space))) (c :: x))
      with (flat_map (ends (Star (Chr is_space)))
                     (ends (Lit "-"%char (L "--")) (c :: x))).
    rewrite ends_Lit. cbn [strip_prefix].
    destruct (chr_eqb "-"%char c) eqn:D; [|reflexivity].
    apply chr_eqb_eq in D. subst c. discriminate E.
Qed.

Lemma trim_start_suffix (s : str) : exists u, s = u ++ trim_start s.
Proof.
  induction s as [|c s [u IH]]; [exists []; reflexivity|].
  simpl. destruct (is_space c).
  - exists (c :: u). simpl. f_equal. exact IH.
  - exists []. reflexivity.
Qed.

Lemma no_separator_before (s rest : str) (d : ascii) :
  last s = Some d -> is_space d = false -> d <> "-"%char ->
  ~ contains (L "---") s ->
  strip_prefix (L "---") (trim_start (s ++ rest)) = None.
Proof.
  intros Hl Hs Hd. induction s as [|c s IH]; intros NC; [discriminate|].
  destruct s as [|x s].
  - injection Hl as ->. cbn [app trim_start]. rewrite Hs.
    cbn [L list_ascii_of_string strip_prefix].
    destruct (chr_eqb "-"%char d) eqn:E; [|reflexivity].
    apply chr_eqb_eq in E. congruence.
  - change (last (c :: x :: s)) with (last (x :: s)) in Hl.
    cbn [app trim_start]. destruct (is_space c) eqn:Ec.
    + apply (IH Hl). intros (u & v & E). apply NC. exists (c :: u), v.
      rewrite E. reflexivity.
    + destruct (strip_prefix (L "---") (c :: (x :: s) ++ rest)) as [y|] eqn:E;
        [|exact E].
      exfalso. apply strip_prefix_some in E. cbn in E.
      injection E as Ec' Ex Es. subst c x. destruct s as [|x2 s].
      * injection Hl as Hl'. congruence.
      * cbn in Es. injection Es as -> _. apply NC. exists [], s. reflexivity.
Qed.

Lemma no_separator_inside (a rest : str) :
  ~ contains (L "---") a ->
  (forall d, last a = Some d -> is_space d = false /\ d <> "-"%char) ->
  forall a1 c a2, a = a1 ++ c :: a2 ->
                  match_at re_separator (c :: a2 ++ rest) = None.
Proof.
  intros NC Hl a1 c a2 ->. rewrite match_at_separator.
  destruct (last (c :: a2)) as [d|] eqn:El.
  - destruct (Hl d) as [Hs Hd].
    { rewrite last_app, El. reflexivity. }
    change (c :: a2 ++ rest) with ((c :: a2) ++ rest).
    rewrite (no_separator_before _ _ d El Hs Hd); [reflexivity|].
    intros (u & v & E). apply NC. exists (a1 ++ u), v.
    rewrite E, <- app_assoc. reflexivity.
  - apply last_None in El. discriminate.
Qed.

Lemma no_separator_after (b : str) :
  ~ contains (L "---") b ->
  forall b1 c b2, b = b1 ++ c :: b2 ->
                  match_at re_separator (c :: b2 ++ []) = None.
Proof.
  intros NC b1 c b2 ->. rewrite match_at_separator, app_nil_r.
  destruct (trim_start_suffix (c :: b2)) as [u Eu].
  destruct (strip_prefix (L "---") (trim_start (c :: b2))) as [y|] eqn:E;
    [|reflexivity].
  exfalso. apply strip_prefix_some in E. apply NC. exists (b1 ++ u), y.
  rewrite Eu, E, <- app_assoc. reflexivity.
Qed.

(** A body with one separator splits into the text before it and the text
    after it. *)
Lemma split_separator_two (a ws1 ws2 b : str) :
  ~ contains (L "---") a ->
  (forall d, last a = Some d -> is_space d = false /\ d <> "-"%char) ->
  all is_space ws1 -> all is_space ws2 ->
  ~ contains (L "---") b ->
  (forall c b', b = c :: b' -> is_space c = false) ->
  split_re re_separator (a ++ ws1 ++ L "---" ++ ws2 ++ b) = [a; b].
Proof.
  intros Na La A1 A2 Nb Hb. unfold split_re.
  assert (E : js_split (match_at re_separator) (a ++ ws1 ++ L "---" ++ ws2 ++ b)
              = split_go (match_at re_separator)
                         (a ++ ws1 ++ L "---" ++ ws2 ++ b) 0 []).
  { destruct a; [destruct ws1|]; reflexivity. }
  rewrite E. rewrite split_go_scan by (apply no_separator_inside; assumption).
  rewrite app_nil_r.
  replace (ws1 ++ L "---" ++ ws2 ++ b) with ((ws1 ++ L "---" ++ ws2) ++ b)
    by (rewrite <- !app_assoc; reflexivity).
  rewrite split_go_at.
  - rewrite rev_involutive. rewrite <- (app_nil_r b) at 1.
    rewrite split_go_scan by (apply no_separator_after; exact Nb).
    cbn [split_go]. rewrite app_nil_r, rev_involutive. reflexivity.
  - destruct ws1; discriminate.
  - rewrite match_at_separator. rewrite <- !app_assoc.
    rewrite (trim_start_run ws1)
      by (try assumption; intros c y' Ey; injection Ey as <- _; reflexivity).
    rewrite strip_prefix_app. f_equal. apply trim_start_run; assumption.
Qed.

(** ** The claim about the special code blocks *)

(** C1, as stated, fails: a body with two separators splits into three
    parts, of which the third is rendered nowhere, and a body without a
    separator is a single part. *)
Lemma special_block_not_two_parts :
  split_re re_separator (L "a---b---c") = [L "a"; L "b"; L "c"] /\
  renderer_code Sample.libs (L "a---b---c") (Some (L "tweed")) []
  = Val (placeholder,
         [mk_example (pre_code (L "javascript") (L "a"))
                     (pre_code (L "typescript") (L "b")) false]) /\
  split_re re_separator (L "abc") = [L "abc"] /\
  ~ (forall code : str, length (split_re re_separator code) = 2).
Proof.
  split; [reflexivity|]. split; [reflexivity|]. split; [reflexivity|].
  intros H. specialize (H (L "abc")). vm_compute in H. discriminate H.
Qed.

(** C1 (amended).  For a code block whose tag holds [tweed], the body is
    split on [/\s*---\s*/]; whatever the renderer returns is the
    placeholder element and one new example; when the split yields at
    least two parts the first is rendered as [javascript], the second as
    [typescript] and further parts are not rendered; in the HTML of the
    document the placeholder stands where the block was; and a body made
    of a text, one separator with white space around it and a second
    text splits into exactly these two texts. *)
Theorem special_block_rendering (lb : Libs) (code : str) (lang : option str)
        (exs : list example) :
  contains (L "tweed") (to_string lang) ->
  (forall h exs', renderer_code lb code lang exs = Val (h, exs') ->
                  h = placeholder /\ exists ex, exs' = exs ++ [ex]) /\
  (forall js ts more,
      split_re re_separator code = js :: ts :: more ->
      renderer_code lb code lang exs
      = Val (placeholder,
             exs ++ [mk_example (pre_code (L "javascript") (prism lb js g_tweed))
                                (pre_code (L "typescript") (prism lb ts g_tweed))
                                (test re_tweed_fiddle (to_string lang))])) /\
  (forall pre post exs0 h1 h h2 exs' exs2,
      render lb pre exs0 = Val (h1, exs) ->
      renderer_code lb code lang exs = Val (h, exs') ->
      render lb post exs' = Val (h2, exs2) ->
      render lb (pre ++ TCode code lang :: post) exs0
      = Val (h1 ++ placeholder ++ h2, exs2)) /\
  (forall a ws1 ws2 b,
      code = a ++ ws1 ++ L "---" ++ ws2 ++ b ->
      ~ contains (L "---") a ->
      (forall d, last a = Some d -> is_space d = false /\ d <> "-"%char) ->
      all is_space ws1 -> all is_space ws2 ->
      ~ contains (L "---") b ->
      (forall c b', b = c :: b' -> is_space c = false) ->
      split_re re_separator code = [a; b]).
Proof.
  intros C. apply test_tweed in C. split; [|split; [|split]].
  - intros h exs' H.
    apply renderer_code_special in H as (-> & js & ts & _ & _ & ->); [|exact C].
    eauto.
  - intros js ts more Hs. unfold renderer_code. rewrite C, Hs.
    cbn [lookup list_lookup].
    rewrite (codeBlock_string lb js (L "javascript") g_tweed) by reflexivity.
    cbn [rbind].
    rewrite (codeBlock_string lb ts (L "typescript") g_tweed) by reflexivity.
    reflexivity.
  - intros pre post exs0 h1 h h2 exs' exs2 H1 H H2.
    eapply render_app; [exact H1|].
    assert (h = placeholder) as ->.
    { apply renderer_code_special in H as [-> _]; [reflexivity | exact C]. }
    eapply render_cons; [exact H | exact H2].
  - intros a ws1 ws2 b -> Na La A1 A2 Nb Hb.
    apply split_separator_two; assumption.
Qed.

Lemma special_block_rendering_sample :
  contains (L "tweed") (to_string (Some (L "tweed"))) /\
  split_re re_separator (L "a --- b") = [L "a"; L "b"] /\
  renderer_code Sample.libs (L "a --- b") (Some (L "tweed")) []
  = Val (placeholder,
         [mk_example (pre_code (L "javascript") (L "a"))
                     (pre_code (L "typescript") (L "b")) false]).
Proof.
  assert (C : contains (L "tweed") (to_string (Some (L "tweed"))))
    by (exists [], []; reflexivity).
  pose proof (special_block_rendering Sample.libs (L "a --- b")
                (Some (L "tweed")) [] C) as (_ & H2 & _ & H4).
  assert (S : split_re re_separator (L "a --- b") = [L "a"; L "b"]).
  { apply (H4 (L "a") (L " ") (L " ") (L "b")).
    - reflexivity.
    - intros Cn. apply (test_Lit "-"%char (L "--")) in Cn. discriminate Cn.
    - intros d Hd. injection Hd as <-. split; [reflexivity | discriminate].
    - repeat constructor.
    - repeat constructor.
    - intros Cn. apply (test_Lit "-"%char (L "--")) in Cn. discriminate Cn.
    - intros c b' E. injection E as <- _. reflexivity. }
  split; [exact C|]. split; [exact S|]. exact (H2 _ _ [] S).
Defined.

(** * Further properties of the script *)

(** ** Lines *)

Lemma strip_prefix_LF (s : str) :
  strip_prefix [LF] s
  = match s with
    | c :: s' => if chr_eqb LF c then Some s' else None
    | [] => None
    end.
Proof.
  destruct s as [|c s]; [reflexivity|]. cbn [strip_prefix].
  destruct (chr_eqb LF c); [destruct s|]; reflexivity.
Qed.

Lemma join_cons (sep x : str) (l : list str) :
  l <> [] -> join sep (x :: l) = x ++ sep ++ join sep l.
Proof. destruct l; [contradiction | reflexivity]. Qed.

Lemma join_split_go (s cur : str) :
  join [LF] (split_go (strip_prefix [LF]) s 0 cur) = rev cur ++ s.
Proof.
  revert cur. induction s as [|c s IH]; intros cur.
  - cbn. rewrite app_nil_r. reflexivity.
  - cbn [split_go]. rewrite strip_prefix_LF.
    destruct (chr_eqb LF c) eqn:E.
    + apply chr_eqb_eq in E. subst c.
      replace (length (LF :: s) - length s) with 1 by (simpl; lia).
      rewrite join_cons by apply split_go_nonnil. rewrite IH. reflexivity.
    + rewrite IH. cbn [rev]. rewrite <- app_assoc. reflexivity.
Qed.

(** Joining the lines of a text gives the text back. *)
Lemma join_split_lines (s : str) : join [LF] (split_str [LF] s) = s.
Proof.
  unfold split_str. destruct s as [|c s]; [reflexivity|].
  rewrite js_split_cons. apply join_split_go.
Qed.

Lemma split_go_lines (s cur : str) :
  ~ In LF cur ->
  Forall (fun l => ~ In LF l) (split_go (strip_prefix [LF]) s 0 cur).
Proof.
  revert cur. induction s as [|c s IH]; intros cur N.
  - cbn. constructor; [|constructor]. rewrite <- in_rev. exact N.
  - cbn [split_go]. rewrite strip_prefix_LF.
    destruct (chr_eqb LF c) eqn:E.
    + replace (length (c :: s) - length s) with 1 by (simpl; lia).
      constructor; [rewrite <- in_rev; exact N|]. apply IH. intros [].
    + apply IH. intros [->|I]; [|contradiction].
      rewrite chr_eqb_refl in E. discriminate E.
Qed.

Lemma split_lines_no_LF (s : str) :
  Forall (fun l => ~ In LF l) (split_str [LF] s).
Proof.
  unfold split_str. destruct s as [|c s].
  - cbn. constructor; [intros []|constructor].
  - rewrite js_split_cons. apply split_go_lines. intros [].
Qed.

Lemma split_go_join (ls : list str) (l cur : str) :
  Forall (fun l => ~ In LF l) (l :: ls) ->
  split_go (strip_prefix [LF]) (join [LF] (l :: ls)) 0 cur
  = (rev cur ++ l) :: ls.
Proof.
  revert l cur. induction ls as [|l' ls IH]; intros l cur F.
  - cbn [join]. inversion F as [|? ? N _]; subst.
    rewrite <- (app_nil_r l) at 1. rewrite split_go_scan.
    + cbn. rewrite rev_app_distr, rev_involutive. reflexivity.
    + intros a1 c a2 ->. rewrite strip_prefix_LF. cbn.
      destruct (chr_eqb LF c) eqn:E; [|reflexivity].
      apply chr_eqb_eq in E. subst c. exfalso. apply N.
      apply in_or_app. right. left. reflexivity.
  - inversion F as [|? ? N F']; subst.
    rewrite join_cons by discriminate. rewrite split_go_scan.
    + rewrite (split_go_at (strip_prefix [LF]) [LF]).
      * rewrite rev_app_distr, rev_involutive, IH by exact F'. reflexivity.
      * discriminate.
      * apply strip_prefix_app.
    + intros a1 c a2 ->. rewrite strip_prefix_LF.
      destruct (chr_eqb LF c) eqn:E; [|reflexivity].
      apply chr_eqb_eq in E. subst c. exfalso. apply N.
      apply in_or_app. right. left. reflexivity.
Qed.

(** Splitting what was joined from lines gives the lines back. *)
Lemma split_join_lines (ls : list str) :
  ls <> [] -> Forall (fun l => ~ In LF l) ls ->
  split_str [LF] (join [LF] ls) = ls.
Proof.
  intros N F. destruct ls as [|l ls]; [contradiction|].
  pose proof (split_go_join ls l [] F) as H. cbn [rev app] in H.
  unfold split_str.
  destruct (join [LF] (l :: ls)) as [|c s] eqn:E; [|rewrite js_split_cons; exact H].
  destruct ls as [|l' ls].
  - cbn in E. subst l. reflexivity.
  - rewrite join_cons in E by discriminate. destruct l; discriminate E.
Qed.

(** ** The prompt of shell code *)

Lemma match_at_prompt (s : str) :
  match_at re_prompt s
  = match s with
    | c :: s' => if chr_eqb "$"%char c then Some (trim_start s') else None
    | [] => None
    end.
Proof.
  destruct s as [|c s]; [reflexivity|].
  unfold match_at, re_prompt.
  change (ends (Seq (lit_chr "$") (Star (Chr is_space))) (c :: s))
    with (flat_map (ends (Star (Chr is_space)))
                   (if chr_eqb "$"%char c then [s] else [])).
  destruct (chr_eqb "$"%char c); [|reflexivity].
  cbn [flat_map]. rewrite app_nil_r. apply match_at_spaces.
Qed.

Lemma shell_line_other (l : str) : (forall r, l <> "$"%char :: r) -> shell_line l = l.
Proof.
  intros N. unfold shell_line. rewrite match_at_prompt.
  destruct l as [|c l]; [reflexivity|].
  destruct (chr_eqb "$"%char c) eqn:E; [|reflexivity].
  apply chr_eqb_eq in E. subst c. destruct (N l eq_refl).
Qed.

Lemma trim_start_in (s : str) (c : ascii) : In c (trim_start s) -> In c s.
Proof.
  destruct (trim_start_suffix s) as [u E]. intros I. rewrite E.
  apply in_or_app. right. exact I.
Qed.

Lemma shell_line_no_LF (l : str) : ~ In LF l -> ~ In LF (shell_line l).
Proof.
  intros N. unfold shell_line. rewrite match_at_prompt.
  destruct l as [|c l]; [exact N|].
  destruct (chr_eqb "$"%char c); [|exact N].
  intros I. apply in_app_or in I as [I|I].
  - vm_compute in I. intuition discriminate.
  - apply N. right. apply trim_start_in. exact I.
Qed.

(** X1.  In shell code a line that starts with a dollar sign has the
    dollar and all white space after it replaced by the prompt element;
    the rest of the line is kept. *)
Theorem shell_prompt_replaced (ws rest : str) :
  all is_space ws ->
  (forall c r, rest = c :: r -> is_space c = false) ->
  shell_line ("$"%char :: ws ++ rest) = shell_prompt ++ rest.
Proof.
  intros A H. unfold shell_line. rewrite match_at_prompt, chr_eqb_refl.
  rewrite trim_start_run by assumption. reflexivity.
Qed.

Lemma shell_prompt_replaced_sample :
  all is_space (L "  ") /\
  shell_line (L "$  npm install") = shell_prompt ++ L "npm install".
Proof.
  assert (A : all is_space (L "  ")) by (repeat constructor).
  split; [exact A|].
  apply (shell_prompt_replaced (L "  ") (L "npm install") A).
  intros c r E. injection E as <- _. reflexivity.
Defined.

(** X2.  The highlighter treats shell code line by line: when Prism
    returns the lines [ls], the result is made of as many lines, each the
    image of the corresponding line of Prism. *)
Theorem shell_lines_kept (lb : Libs) (code : str) (ls : list str) :
  ls <> [] ->
  Forall (fun l => ~ In LF l) ls ->
  prism lb code g_bash = join [LF] ls ->
  exists out,
    highlight lb (Some code) (Some (L "shell")) = Val out /\
    split_str [LF] out = map shell_line ls.
Proof.
  intros N F E. exists (join [LF] (map shell_line ls)). split.
  - unfold highlight. cbn [orb str_eqb L list_ascii_of_string chr_eqb Ascii.eqb
                             Bool.eqb andb prism_call rbind].
    rewrite E, split_join_lines by assumption. reflexivity.
  - apply split_join_lines.
    + destruct ls; [contradiction | discriminate].
    + apply Forall_map. eapply List.Forall_impl; [|exact F].
      intros l. apply shell_line_no_LF.
Qed.

Lemma shell_lines_kept_sample :
  prism Sample.libs (L "$ make" ++ [LF] ++ L "done") g_bash
  = join [LF] [L "$ make"; L "done"] /\
  exists out,
    highlight Sample.libs (Some (L "$ make" ++ [LF] ++ L "done")) (Some (L "shell"))
    = Val out /\
    split_str [LF] out = [shell_prompt ++ L "make"; L "done"].
Proof.
  split; [reflexivity|].
  apply (shell_lines_kept Sample.libs (L "$ make" ++ [LF] ++ L "done")
           [L "$ make"; L "done"]).
  - discriminate.
  - repeat constructor; intros I; vm_compute in I; intuition discriminate.
  - reflexivity.
Defined.

(** X3.  Shell code in which Prism returns no line that starts with a
    dollar sign comes back from the highlighter as Prism returned it. *)
Theorem shell_without_prompt_unchanged (lb : Libs) (code : str) :
  (forall l, In l (split_str [LF] (prism lb code g_bash)) ->
             forall r, l <> "$"%char :: r) ->
  highlight lb (Some code) (Some (L "shell")) = Val (prism lb code g_bash).
Proof.
  intros H. unfold highlight.
  cbn [orb str_eqb L list_ascii_of_string chr_eqb Ascii.eqb
           Bool.eqb andb prism_call rbind].
  f_equal. rewrite <- (join_split_lines (prism lb code g_bash)) at 2. f_equal.
  rewrite <- (map_id (split_str [LF] (prism lb code g_bash))) at 2.
  apply map_ext_in. intros l I. apply shell_line_other. exact (H l I).
Qed.

Lemma shell_without_prompt_unchanged_sample :
  (forall l, In l (split_str [LF] (prism Sample.libs (L "ls -l") g_bash)) ->
             forall r, l <> "$"%char :: r) /\
  highlight Sample.libs (Some (L "ls -l")) (Some (L "shell")) = Val (L "ls -l").
Proof.
  assert (H : forall l, In l (split_str [LF] (prism Sample.libs (L "ls -l") g_bash)) ->
                        forall r, l <> "$"%char :: r).
  { intros l [<-|[]] r E. discriminate E. }
  split; [exact H|].
  exact (shell_without_prompt_unchanged Sample.libs (L "ls -l") H).
Defined.

(** ** What parse strips and what it keeps *)

Lemma matches_metadata_shape (u : str) :
  matches re_metadata u -> u = [] \/ exists u', u = u' ++ [LF].
Proof.
  unfold re_metadata. intros M. remember (Star re_entry) as r eqn:Er.
  induction M as [| | |r u v Mu _ N Mv IH]; try discriminate; [left; reflexivity|].
  injection Er as ->. right. destruct (IH eq_refl) as [->|[v' ->]].
  - apply matches_entry in Mu as (w & sp & z & -> & _).
    exists (w ++ ":"%char :: sp ++ z). rewrite app_nil_r, <- !app_assoc. simpl.
    rewrite <- !app_assoc. reflexivity.
  - exists (u ++ v'). rewrite app_assoc. reflexivity.
Qed.

Lemma exec_metadata_val (contents metadata : str) :
  exec_metadata contents = Val metadata ->
  match_at re_metadata contents = Some (slice (length metadata) contents) /\
  contents = metadata ++ slice (length metadata) contents.
Proof.
  intros H.
  destruct (exec_metadata_split contents) as (m & r & Hm & Hc & He & Hs).
  rewrite He in H. injection H as <-. rewrite Hs. auto.
Qed.

(** X4.  What [parse] strips from a document is empty or ends with a line
    feed, and the Markdown is the rest of the document: the Markdown
    always starts at the beginning of a line. *)
Theorem stripped_text_ends_line (contents metadata : str) :
  exec_metadata contents = Val metadata ->
  (metadata = [] \/ exists m', metadata = m' ++ [LF]) /\
  contents = metadata ++ slice (length metadata) contents.
Proof.
  intros H. destruct (exec_metadata_val _ _ H) as [Hm Hc]. split; [|exact Hc].
  apply match_at_sound in Hm as (u & E & M).
  rewrite Hc in E at 1. apply app_inv_tail in E. subst u.
  apply matches_metadata_shape. exact M.
Qed.

Lemma stripped_text_ends_line_sample :
  exec_metadata (L "Title: X" ++ [LF] ++ L "text") = Val (L "Title: X" ++ [LF]) /\
  (L "Title: X" ++ [LF] = [] \/ exists m', L "Title: X" ++ [LF] = m' ++ [LF]).
Proof.
  assert (H : exec_metadata (L "Title: X" ++ [LF] ++ L "text")
              = Val (L "Title: X" ++ [LF])) by reflexivity.
  split; [exact H|]. exact (proj1 (stripped_text_ends_line _ _ H)).
Defined.

Lemma match_at_metadata_rest (n : nat) (s r : str) :
  length s <= n ->
  match_at re_metadata s = Some r -> match_at re_entry r = None.
Proof.
  revert s. induction n as [|n IH]; intros s Hn H;
    rewrite match_at_metadata_step in H;
    destruct (match_at re_entry s) as [e|] eqn:E;
    try (injection H as <-; exact E).
  - apply match_at_sound in E as (u & -> & M).
    apply matches_entry_nonempty in M. destruct u; [contradiction | simpl in Hn; lia].
  - apply (IH e); [|exact H].
    apply match_at_sound in E as (u & -> & M).
    apply matches_entry_nonempty in M. rewrite length_app in Hn.
    destruct u; [contradiction | simpl in Hn; lia].
Qed.

(** X5.  Stripping is complete: in the Markdown that [parse] keeps, the
    metadata pattern matches nothing more. *)
Theorem stripping_is_complete (contents metadata : str) :
  exec_metadata contents = Val metadata ->
  exec_metadata (slice (length metadata) contents) = Val [].
Proof.
  intros H. destruct (exec_metadata_val _ _ H) as [Hm _].
  pose proof (match_at_metadata_rest _ _ _ (le_n _) Hm) as N.
  unfold exec_metadata. rewrite match_at_metadata_step, N, Nat.sub_diag.
  reflexivity.
Qed.

Lemma stripping_is_complete_sample :
  exec_metadata (Sample.text ["Title: A"; "Level: 2"; "body: text"; ""] ++ L "rest")
  = Val (Sample.text ["Title: A"; "Level: 2"; "body: text"]) /\
  exec_metadata (LF :: L "rest") = Val [].
Proof.
  assert (H : exec_metadata
                (Sample.text ["Title: A"; "Level: 2"; "body: text"; ""] ++ L "rest")
              = Val (Sample.text ["Title: A"; "Level: 2"; "body: text"]))
    by reflexivity.
  split; [exact H|]. exact (stripping_is_complete _ _ H).
Defined.

(** X6.  A document that is empty or starts with a code unit that is no
    word character has no headers, and all of it is compiled. *)
Theorem document_without_headers (lb : Libs) (contents : str) :
  (forall c rest, contents = c :: rest -> is_word c = false) ->
  parse_contents lb contents
  = rbind (compileMarkdown lb contents) (fun '(html, examples) =>
    Val (mk_parsed ∅ html examples)).
Proof.
  intros H.
  assert (N : match_at re_entry contents = None).
  { apply match_at_none. intros u e E M.
    apply matches_entry in M as (w & sp & z & -> & Nw & Aw & _).
    destruct w as [|c w]; [contradiction|]. inversion Aw as [|? ? Wc _]; subst.
    rewrite (H c _ eq_refl) in Wc. discriminate Wc. }
  unfold parse_contents, exec_metadata.
  rewrite match_at_metadata_step, N, Nat.sub_diag. reflexivity.
Qed.

Lemma document_without_headers_sample :
  (forall c rest, L "# Heading" = c :: rest -> is_word c = false) /\
  parse_contents Sample.libs (L "# Heading")
  = Val (mk_parsed ∅ (L "# Heading") []).
Proof.
  assert (H : forall c rest, L "# Heading" = c :: rest -> is_word c = false)
    by (intros c rest E; injection E as <- _; reflexivity).
  split; [exact H|].
  rewrite (document_without_headers Sample.libs _ H). reflexivity.
Defined.

Lemma assign_origin (m : gmap str (option str)) (key k : str) (value v : option str) :
  assign m key value !! k = Some v -> (k = key /\ v = value) \/ m !! k = Some v.
Proof.
  unfold assign. destruct (str_eqb key (L "__proto__")); [auto|].
  destruct (decide (key = k)) as [->|N].
  - rewrite lookup_insert_eq. intros E. injection E as <-. auto.
  - rewrite lookup_insert_ne by exact N. auto.
Qed.

Lemma reduce_origin (l : list (list str)) (m h : gmap str (option str))
      (k : str) (v : option str) :
  reduce m l = Val h ->
  h !! k = Some v ->
  m !! k = Some v \/
  exists key more, In (key :: more) l /\ k = toLowerCase key /\ v = more !! 0.
Proof.
  revert m. induction l as [|parts l IH]; intros m H Hk.
  - injection H as <-. auto.
  - cbn [reduce] in H. apply rbind_val in H as (m' & Hs & H).
    destruct (IH m' H Hk) as [Hm|(key & more & I & E)].
    + unfold reduce_step in Hs. destruct parts as [|key more]; [discriminate|].
      cbn [lookup list_lookup] in Hs. injection Hs as <-.
      apply assign_origin in Hm as [[-> ->]|Hm]; [right|left; exact Hm].
      exists key, more. split; [left; reflexivity | auto].
    + right. exists key, more. split; [right; exact I | exact E].
Qed.

(** X7.  Every header comes from a line of the metadata block: its key is
    the lowercased first piece of that line and its value the second
    piece. *)
Theorem headers_come_from_lines (metadata k : str) (v : option str)
        (h : gmap str (option str)) :
  parse_headers metadata = Val h ->
  h !! k = Some v ->
  exists s key more,
    In s (metadata_lines metadata) /\
    split_re re_colon s = key :: more /\
    k = toLowerCase key /\ v = more !! 0.
Proof.
  unfold parse_headers. intros H Hk.
  destruct (reduce_origin _ _ _ _ _ H Hk) as [E|(key & more & I & Ek & Ev)].
  - rewrite lookup_empty in E. discriminate E.
  - apply in_map_iff in I as (s & Es & Is). exists s, key, more. auto.
Qed.

Lemma headers_come_from_lines_sample :
  exists h,
    parse_headers (Sample.text ["Title: Hello"; "LEVEL: 1"]) = Val h /\
    h !! L "level" = Some (Some (L "1")) /\
    exists s key more,
      In s (metadata_lines (Sample.text ["Title: Hello"; "LEVEL: 1"])) /\
      split_re re_colon s = key :: more /\
      L "level" = toLowerCase key /\ Some (L "1") = more !! 0.
Proof.
  destruct (parse_headers (Sample.text ["Title: Hello"; "LEVEL: 1"])) as [h|e] eqn:E;
    [|vm_compute in E; discriminate E].
  exists h. split; [reflexivity|].
  assert (Hk : h !! L "level" = Some (Some (L "1"))).
  { vm_compute in E. injection E as <-. vm_compute. reflexivity. }
  split; [exact Hk|]. exact (headers_come_from_lines _ _ _ _ E Hk).
Defined.

(** X8.  No line of the metadata block, as the headers are read from it,
    is empty or holds a line feed. *)
Theorem metadata_lines_are_lines (metadata l : str) :
  In l (metadata_lines metadata) -> l <> [] /\ ~ In LF l.
Proof.
  unfold metadata_lines. intros I. apply filter_In in I as [I N]. split.
  - intros ->. discriminate N.
  - pose proof (split_lines_no_LF metadata) as F.
    rewrite List.Forall_forall in F. exact (F l I).
Qed.

Lemma metadata_lines_are_lines_sample :
  In (L "b: 2") (metadata_lines (L "a: 1" ++ [LF; LF] ++ L "b: 2" ++ [LF])) /\
  L "b: 2" <> [] /\ ~ In LF (L "b: 2").
Proof.
  assert (I : In (L "b: 2") (metadata_lines (L "a: 1" ++ [LF; LF] ++ L "b: 2" ++ [LF])))
    by (right; left; reflexivity).
  split; [exact I|]. exact (metadata_lines_are_lines _ _ I).
Defined.

(** ** More on compileMarkdown *)

(** X9.  When the output of [marked] holds no anchor with an href that
    starts with http, [compileMarkdown] returns that output as it is. *)
Theorem html_without_links_unchanged (lb : Libs) (source raw : str)
        (exs : list example) :
  marked lb source = Val (raw, exs) ->
  (forall i, ~ occurs_at anchor_plain i raw) ->
  compileMarkdown lb source = Val (raw, exs).
Proof.
  intros Hm N. unfold compileMarkdown. rewrite Hm. cbn [rbind].
  rewrite replace_first_absent by exact N. reflexivity.
Qed.

Lemma html_without_links_unchanged_sample :
  marked Sample.libs (L "hello") = Val (L "hello", []) /\
  compileMarkdown Sample.libs (L "hello") = Val (L "hello", []).
Proof.
  assert (Hm : marked Sample.libs (L "hello") = Val (L "hello", [])) by reflexivity.
  split; [exact Hm|].
  apply (html_without_links_unchanged Sample.libs _ _ _ Hm).
  intros i [v Hv].
  do 6 (destruct i as [|i]; [vm_compute in Hv; discriminate Hv|]).
  vm_compute in Hv. discriminate Hv.
Defined.

Lemma renderer_code_two_parts (lb : Libs) (code : str) (lang : option str)
      (exs : list example) (js ts : str) (more : list str) :
  test re_tweed (to_string lang) = true ->
  split_re re_separator code = js :: ts :: more ->
  renderer_code lb code lang exs
  = Val (placeholder,
         exs ++ [mk_example (pre_code (L "javascript") (prism lb js g_tweed))
                            (pre_code (L "typescript") (prism lb ts g_tweed))
                            (test re_tweed_fiddle (to_string lang))]).
Proof.
  intros C Hs. unfold renderer_code. rewrite C, Hs. cbn [lookup list_lookup].
  rewrite (codeBlock_string lb js (L "javascript") g_tweed) by reflexivity.
  cbn [rbind].
  rewrite (codeBlock_string lb ts (L "typescript") g_tweed) by reflexivity.
  reflexivity.
Qed.

Lemma render_sound (lb : Libs) (ts : list token) (exs : list example) :
  Forall (fun t => sound_token t = true) ts ->
  exists h new,
    render lb ts exs = Val (h, exs ++ new) /\
    length new = length (special_tags ts).
Proof.
  intros F. revert exs. induction F as [|t ts S _ IH]; intros exs.
  - exists [], []. rewrite app_nil_r. auto.
  - destruct t as [code lang|code|o].
    + cbn [sound_token special_tags] in *.
      destruct (test re_tweed (to_string lang)) eqn:T.
      * apply Nat.leb_le in S.
        destruct (split_re re_separator code) as [|js [|tsx more]] eqn:Hs;
          [simpl in S; lia | simpl in S; lia |].
        destruct (IH (exs ++ [mk_example
                                (pre_code (L "javascript") (prism lb js g_tweed))
                                (pre_code (L "typescript") (prism lb tsx g_tweed))
                                (test re_tweed_fiddle (to_string lang))]))
          as (h & new & Hr & Hl).
        eexists _, (_ :: new). split.
        -- eapply render_cons.
           ++ cbn [render_token]. eapply renderer_code_two_parts; eassumption.
           ++ rewrite Hr, <- app_assoc. reflexivity.
        -- simpl. rewrite Hl. reflexivity.
      * destruct (IH exs) as (h & new & Hr & Hl).
        destruct (render_token_plain lb (TCode code lang) exs) as [h1 H1].
        { cbn [plain_token]. rewrite T, S. reflexivity. }
        exists (h1 ++ h), new. split; [|exact Hl].
        eapply render_cons; eassumption.
    + destruct (IH exs) as (h & new & Hr & Hl).
      destruct (render_token_plain lb (TCodespan code) exs eq_refl) as [h1 H1].
      exists (h1 ++ h), new. split; [|exact Hl]. eapply render_cons; eassumption.
    + destruct (IH exs) as (h & new & Hr & Hl).
      exists (o ++ h), new. split; [|exact Hl].
      eapply render_cons; [reflexivity | exact Hr].
Qed.

(** X10.  A document compiles when each of its special code blocks has a
    body of at least two parts and every other code block has a tag the
    highlighter knows; it then has one example for each special code
    block. *)
Theorem sound_document_compiles (lb : Libs) (source : str) :
  Forall (fun t => sound_token t = true) (lex lb source) ->
  exists html exs,
    compileMarkdown lb source = Val (html, exs) /\
    length exs = length (special_tags (lex lb source)).
Proof.
  intros F. destruct (render_sound lb _ [] F) as (h & new & Hr & Hl).
  unfold compileMarkdown, marked. rewrite Hr. cbn [rbind app]. eauto.
Qed.

Lemma sound_document_compiles_sample :
  Forall (fun t => sound_token t = true) (lex Sample.libs (L "two examples")) /\
  exists html exs,
    compileMarkdown Sample.libs (L "two examples") = Val (html, exs) /\
    length exs = 2.
Proof.
  assert (F : Forall (fun t => sound_token t = true)
                     (lex Sample.libs (L "two examples")))
    by (repeat constructor).
  split; [exact F|]. exact (sound_document_compiles Sample.libs _ F).
Defined.

Lemma split_without_separator (code : str) :
  ~ contains (L "---") code -> split_re re_separator code = [code].
Proof.
  intros N. unfold split_re. destruct code as [|c code]; [reflexivity|].
  rewrite js_split_cons. rewrite <- (app_nil_r (c :: code)) at 1.
  rewrite split_go_scan by (apply no_separator_after; exact N).
  cbn [split_go]. rewrite app_nil_r, rev_involutive. reflexivity.
Qed.

(** X11.  A special code block whose body holds no [---] has a single
    part: its [typescript] variant is what Prism makes of [undefined], so
    the renderer throws whatever Prism throws then. *)
Theorem special_block_without_separator (lb : Libs) (code : str)
        (lang : option str) (exs : list example) :
  contains (L "tweed") (to_string lang) ->
  ~ contains (L "---") code ->
  split_re re_separator code = [code] /\
  renderer_code lb code lang exs
  = rbind (prism_undefined lb g_tweed) (fun h =>
    Val (placeholder,
         exs ++ [mk_example (pre_code (L "javascript") (prism lb code g_tweed))
                            (pre_code (L "typescript") h)
                            (test re_tweed_fiddle (to_string lang))])) /\
  (forall e, prism_undefined lb g_tweed = Throw e ->
             renderer_code lb code lang exs = Throw e).
Proof.
  intros C N. apply test_tweed in C.
  pose proof (split_without_separator code N) as Hs. split; [exact Hs|].
  assert (E : renderer_code lb code lang exs
              = rbind (prism_undefined lb g_tweed) (fun h =>
                Val (placeholder,
                     exs ++ [mk_example
                               (pre_code (L "javascript") (prism lb code g_tweed))
                               (pre_code (L "typescript") h)
                               (test re_tweed_fiddle (to_string lang))]))).
  { unfold renderer_code. rewrite C, Hs. cbn [lookup list_lookup].
    rewrite (codeBlock_string lb code (L "javascript") g_tweed) by reflexivity.
    cbn [rbind]. unfold codeBlock, highlight.
    cbn [orb str_eqb L list_ascii_of_string chr_eqb Ascii.eqb Bool.eqb andb
             prism_call].
    destruct (prism_undefined lb g_tweed); reflexivity. }
  split; [exact E|]. intros e He. rewrite E, He. reflexivity.
Qed.

Lemma special_block_without_separator_sample :
  contains (L "tweed") (to_string (Some (L "tweed"))) /\
  ~ contains (L "---") (L "let a = 1") /\
  renderer_code Sample.libs (L "let a = 1") (Some (L "tweed")) []
  = Throw (TypeError (L "Cannot read property 'length' of undefined")).
Proof.
  assert (C : contains (L "tweed") (to_string (Some (L "tweed"))))
    by (exists [], []; reflexivity).
  assert (N : ~ contains (L "---") (L "let a = 1"))
    by (intros Cn; apply (test_Lit "-"%char (L "--")) in Cn; discriminate Cn).
  split; [exact C|]. split; [exact N|].
  exact (proj2 (proj2 (special_block_without_separator Sample.libs _ _ [] C N))
               _ eq_refl).
Defined.

(** ** The urls of the manifest *)

(** X12.  The url of a file under the distribution directory is [/docs]
    followed by its path below that directory; the copy of the script at
    lines 1-242 puts the origin of the site before it. *)
Theorem url_of_dist_path (lb : Libs) (rest : str) :
  url lb (dirDist lb ++ rest) = L "/docs" ++ rest /\
  Rev1.url lb (dirDist lb ++ rest)
  = L "https://tweedjs.github.io" ++ url lb (dirDist lb ++ rest).
Proof.
  unfold url, Rev1.url.
  rewrite !replace_first_unfold, !strip_prefix_app. split; reflexivity.
Qed.

(** X13.  A path in which the distribution directory does not occur is
    its own url. *)
Theorem url_of_other_path (lb : Libs) (path : str) :
  (forall i, ~ occurs_at (dirDist lb) i path) -> url lb path = path.
Proof. intros N. unfold url. apply replace_first_absent. exact N. Qed.

Lemma url_of_other_path_sample :
  (forall i, ~ occurs_at (dirDist Sample.libs) i (L "/tmp/x.json")) /\
  url Sample.libs (L "/tmp/x.json") = L "/tmp/x.json".
Proof.
  assert (N : forall i, ~ occurs_at (dirDist Sample.libs) i (L "/tmp/x.json")).
  { intros i [v Hv].
    do 12 (destruct i as [|i]; [vm_compute in Hv; discriminate Hv|]).
    vm_compute in Hv. discriminate Hv. }
  split; [exact N|]. exact (url_of_other_path Sample.libs _ N).
Defined.

(** ** The calls of the build *)

Section Calls.
Context (lb : Libs) (sys : Sys).

Lemma bind_inv {A B} (m : M sys A) (f : A -> M sys B) st r st' :
  bind sys m f st = (r, st') ->
  (exists a st1, m st = (Val a, st1) /\ f a st1 = (r, st')) \/
  (exists e, m st = (Throw e, st') /\ r = Throw e).
Proof.
  unfold bind. destruct (m st) as [[a|e] st1]; intros H.
  - left. eauto.
  - right. injection H as <- <-. eauto.
Qed.

Lemma mkdirs_trace path st r st' :
  mkdirs sys path st = (r, st') -> snd st' = snd st ++ [EMkdirs path].
Proof.
  destruct st as [w t]. unfold mkdirs.
  destruct (fs_mkdirs sys path w) as [r1 w1]. intros H. injection H as _ <-.
  reflexivity.
Qed.

Lemma readFile_trace path st r st' :
  readFile sys path st = (r, st') -> snd st' = snd st ++ [ERead path].
Proof.
  destruct st as [w t]. unfold readFile.
  destruct (fs_readFile sys path w) as [r1 w1]. intros H. injection H as _ <-.
  reflexivity.
Qed.

Lemma writeFile_trace path data st r st' :
  writeFile sys path data st = (r, st') ->
  snd st' = snd st ++ [EWrite path data] /\
  fs_writeFile sys path data (fst st) = (r, fst st').
Proof.
  destruct st as [w t]. unfold writeFile.
  destruct (fs_writeFile sys path data w) as [r1 w1] eqn:E. intros H.
  injection H as <- <-. simpl. auto.
Qed.





End Calls.



(** ** Builds that fail *)

Section Failures.
Context (lb : Libs) (sys : Sys).

(** No call of [console.log] among the events. *)
Abbreviation quiet t := (Forall (fun ev => call_of ev <> CLog) t).

Lemma quiet_app (t1 t2 : list event) : quiet t1 -> quiet t2 -> quiet (t1 ++ t2).
Proof. intros H1 H2. apply Forall_app. auto. Qed.

Lemma parse_trace path st r st' :
  parse lb sys path st = (r, st') -> snd st' = snd st ++ [ERead path].
Proof.
  unfold parse. intros H.
  apply bind_inv in H as [(c & st0 & Hr & H)|(e & Hr & _)].
  - unfold lift in H. injection H as _ <-. exact (readFile_trace _ _ _ _ _ Hr).
  - exact (readFile_trace _ _ _ _ _ Hr).
Qed.

Lemma build_subsection_quiet dd ds sub subs st r st' :
  build_subsection lb sys dd ds sub subs st = (r, st') ->
  exists t, snd st' = snd st ++ t /\ quiet t.
Proof.
  unfold build_subsection. intros H.
  apply bind_inv in H as [(p & st1 & Hp & H)|(e & Hp & _)].
  - apply parse_trace in Hp.
    assert (Hw : snd st' = snd st1 ++ [EWrite (resolve lb ds (sub ++ L ".json"))
                   (stringify_document lb (mk_document (html p) (examples p)))]).
    { apply bind_inv in H as [([] & st2 & Hw & H)|(e & Hw & _)].
      - unfold ret in H. injection H as _ <-.
        exact (proj1 (writeFile_trace _ _ _ _ _ _ Hw)).
      - exact (proj1 (writeFile_trace _ _ _ _ _ _ Hw)). }
    eexists. rewrite Hw, Hp, <- app_assoc. split; [reflexivity|].
    repeat constructor; discriminate.
  - apply parse_trace in Hp. eexists. split; [exact Hp|].
    repeat constructor; discriminate.
Qed.

Lemma for_of_quiet {A S} (body : A -> S -> M sys S) (l : list A) :
  (forall x acc st r st', body x acc st = (r, st') ->
                          exists t, snd st' = snd st ++ t /\ quiet t) ->
  forall acc st r st',
    for_of sys l body acc st = (r, st') ->
    exists t, snd st' = snd st ++ t /\ quiet t.
Proof.
  intros B. induction l as [|x l IH]; intros acc st r st' H.
  - cbn [for_of] in H. unfold ret in H. injection H as _ <-.
    exists []. rewrite app_nil_r. split; [reflexivity | constructor].
  - cbn [for_of] in H. apply bind_inv in H as [(a & st1 & H1 & H)|(e & H1 & _)].
    + apply B in H1 as (t1 & T1 & Q1). apply IH in H as (t2 & T2 & Q2).
      exists (t1 ++ t2). rewrite T2, T1, <- app_assoc.
      split; [reflexivity | apply quiet_app; assumption].
    + exact (B _ _ _ _ _ H1).
Qed.

Lemma lift_trace {A} (r : result A) st r' st' :
  lift sys r st = (r', st') -> st' = st.
Proof. unfold lift. intros H. injection H as _ <-. reflexivity. Qed.

Lemma build_section_quiet section secs st r st' :
  build_section lb sys section secs st = (r, st') ->
  exists t, snd st' = snd st ++ t /\ quiet t.
Proof.
  unfold build_section. intros H.
  apply bind_inv in H as [(c & st1 & Hr & H)|(e & Hr & _)];
    apply readFile_trace in Hr.
  2:{ eexists. split; [exact Hr|]. repeat constructor; discriminate. }
  apply bind_inv in H as [(y & st2 & Hy & H)|(e & Hy & _)];
    apply lift_trace in Hy as ->.
  2:{ eexists. split; [exact Hr|]. repeat constructor; discriminate. }
  apply bind_inv in H as [(d & st2 & Hd & H)|(e & Hd & _)];
    apply lift_trace in Hd as ->.
  2:{ eexists. split; [exact Hr|]. repeat constructor; discriminate. }
  apply bind_inv in H as [([] & st3 & Hm & H)|(e & Hm & _)];
    apply mkdirs_trace in Hm.
  2:{ eexists. rewrite Hm, Hr, <- !app_assoc. split; [reflexivity|].
      repeat constructor; discriminate. }
  apply bind_inv in H as [(declared & st4 & Hi & H)|(e & Hi & _)];
    apply lift_trace in Hi as ->.
  2:{ eexists. rewrite Hm, Hr, <- !app_assoc. split; [reflexivity|].
      repeat constructor; discriminate. }
  assert (Q : exists t, snd st' = snd st3 ++ t /\ quiet t).
  { apply bind_inv in H as [(subs & st5 & Hs & H)|(e & Hs & _)].
    - unfold ret in H. injection H as _ <-.
      eapply for_of_quiet; [|exact Hs].
      intros; eapply build_subsection_quiet; eassumption.
    - eapply for_of_quiet; [|exact Hs].
      intros; eapply build_subsection_quiet; eassumption. }
  destruct Q as (t & T & Q).
  eexists. rewrite T, Hm, Hr, <- !app_assoc. split; [reflexivity|].
  repeat (constructor; [discriminate|]). exact Q.
Qed.

End Failures.

(** X15.  A build that throws has printed no manifest, unless what threw
    was the last call, the write of the manifest that had just been
    printed. *)
Theorem failed_build_prints_no_manifest (lb : Libs) (sys : Sys)
        (st st' : state sys) (e : exn) :
  main lb sys st = (Throw e, st') ->
  exists t,
    snd st' = snd st ++ t /\
    (Forall (fun ev => call_of ev <> CLog) t \/
     exists t0 m w,
       t = t0 ++ [ELog (stringify_manifest lb m);
                  EWrite (resolve lb (dirDist lb) (L "manifest.json"))
                         (stringify_manifest lb m)] /\
       fs_writeFile sys (resolve lb (dirDist lb) (L "manifest.json"))
                    (stringify_manifest lb m) w
       = (Throw e, fst st')).
Proof.
  unfold main. intros H.
  apply bind_inv in H as [([] & st1 & Hm & H)|(e1 & Hm & _)].
  2:{ apply mkdirs_trace in Hm. eexists. split; [exact Hm|]. left.
      repeat constructor; discriminate. }
  apply mkdirs_trace in Hm.
  apply bind_inv in H as [(c & st2 & Hr & H)|(e1 & Hr & _)].
  2:{ apply readFile_trace in Hr. eexists. rewrite Hr, Hm, <- app_assoc.
      split; [reflexivity|]. left. repeat constructor; discriminate. }
  apply readFile_trace in Hr.
  apply bind_inv in H as [(declared & st3 & Hy & H)|(e1 & Hy & _)].
  2:{ unfold lift in Hy. injection Hy as _ <-. eexists.
      rewrite Hr, Hm, <- app_assoc. split; [reflexivity|]. left.
      repeat constructor; discriminate. }
  unfold lift in Hy. injection Hy as _ <-.
  apply bind_inv in H as [(secs & st4 & Hs & H)|(e1 & Hs & _)].
  2:{ apply (for_of_quiet sys) in Hs as (t & T & Q);
        [|intros; eapply build_section_quiet; eassumption].
      eexists. rewrite T, Hr, Hm, <- !app_assoc. split; [reflexivity|]. left.
      repeat (constructor; [discriminate|]). exact Q. }
  apply bind_inv in H as [([] & st5 & Hl & H)|(e1 & Hl & _)].
  2:{ destruct st4 as [w4 t4]. discriminate Hl. }
  apply console_log_val in Hl.
  apply bind_inv in H as [([] & st6 & Hw & H)|(e1 & Hw & E1)].
  { unfold ret in H. discriminate H. }
  injection E1 as <-. apply writeFile_trace in Hw as [Tw Fw].
  exists (skipn (length (snd st)) (snd st')).
  assert (T : exists t4, snd st4 = snd st ++ t4).
  { apply (for_of_quiet sys) in Hs as (t & T & _);
      [|intros; eapply build_section_quiet; eassumption].
    eexists. rewrite T, Hr, Hm, <- !app_assoc. reflexivity. }
  destruct T as [t4 T4].
  rewrite Tw, Hl, T4, <- !app_assoc, skipn_app, Nat.sub_diag, skipn_all.
  cbn [app skipn]. split; [reflexivity|]. right.
  exists t4, (mk_manifest secs), (fst st5). split; [reflexivity | exact Fw].
Qed.

Lemma failed_build_prints_no_manifest_sample :
  exists st' t,
    main Sample.libs Sample.sys (Sample.start Sample.disk_without_subsections)
    = (Throw (TypeError (msg_iterable Sample.libs)), st') /\
    snd st' = [] ++ t /\
    Forall (fun ev => call_of ev <> CLog) t /\
    In (EMkdirs (L "/repo/dist/tour")) t.
Proof.
  pose proof section_without_subsections as E.
  destruct (failed_build_prints_no_manifest _ _ _ _ _ E) as (t & T & [Q|Hw]).
  - eexists _, t. split; [exact E|]. split; [exact T|]. split; [exact Q|].
    cbn in T. rewrite <- T. right; right; right; left; reflexivity.
  - exfalso. destruct Hw as (t0 & m & w & -> & _). cbn in T.
    destruct t0 as [|? [|? [|? [|? [|? ?]]]]]; discriminate T.
Defined.

(** ** The descriptions of the sections *)

Lemma trim_start_head (s r : str) (c : ascii) :
  trim_start s = c :: r -> is_space c = false.
Proof.
  induction s as [|d s IH]; [discriminate|]. simpl.
  destruct (is_space d) eqn:E; [exact IH|]. intros H. injection H as <- _. exact E.
Qed.

Lemma trim_start_keeps_last (x : str) (c : ascii) :
  is_space c = false -> exists y, trim_start (x ++ [c]) = y ++ [c].
Proof.
  intros E. induction x as [|d x [y IH]].
  - exists []. simpl. rewrite E. reflexivity.
  - simpl. destruct (is_space d).
    + exists y. exact IH.
    + exists (d :: x). reflexivity.
Qed.

Lemma trim_trimmed (s : str) : trimmed (trim s).
Proof.
  unfold trim. split.
  - intros c r H. destruct (trim_start s) as [|c0 t] eqn:Et; [discriminate H|].
    pose proof (trim_start_head _ _ _ Et) as E0.
    cbn [rev] in H. destruct (trim_start_keeps_last (rev t) c0 E0) as [y Ey].
    rewrite Ey, rev_app_distr in H. injection H as <- _. exact E0.
  - intros r c H. apply (f_equal (@rev ascii)) in H.
    rewrite rev_involutive, rev_app_distr in H. cbn in H.
    exact (trim_start_head _ _ _ H).
Qed.

(** X16.  In the manifest of a build that returns, no description of a
    section starts or ends with white space. *)
Theorem descriptions_are_trimmed (lb : Libs) (sys : Sys) (st st' : state sys)
        (m : manifest) :
  main lb sys st = (Val m, st') ->
  Forall (fun e => trimmed (description e)) (sections m).
Proof.
  intros H.
  apply main_val in H as (w1 & w2 & c & declared & evss & _ & _ & _ & _ & F & _).
  induction F as [|e evs es evss (w & w' & c' & y & d & _ & _ & _ & _ & D & _) _ IH];
    constructor; [|exact IH].
  rewrite D. apply trim_trimmed.
Qed.

Lemma descriptions_are_trimmed_sample :
  exists m st',
    main Sample.libs Sample.sys (Sample.start Sample.disk) = (Val m, st') /\
    map description (sections m) = [L "A tour."; L "How to."] /\
    Forall (fun e => trimmed (description e)) (sections m).
Proof.
  destruct (main Sample.libs Sample.sys (Sample.start Sample.disk))
    as [[m|e] st'] eqn:E; [|vm_compute in E; discriminate E].
  exists m, st'. split; [reflexivity|]. split.
  - vm_compute in E. injection E as <- _. reflexivity.
  - exact (descriptions_are_trimmed _ _ _ _ _ E).
Defined.

(** ** An index without sections *)

(** X17.  When the root index declares no section and the calls to the
    file system succeed, the build makes the distribution directory,
    reads the index, prints and writes a manifest without sections, and
    does nothing else. *)
Theorem empty_index_builds (lb : Libs) (sys : Sys) (w w1 w2 w3 : World sys)
        (t : list event) (c : str) :
  fs_mkdirs sys (dirDist lb) w = (Val tt, w1) ->
  fs_readFile sys (resolve lb (dirDocs lb) (L "_index.yaml")) w1 = (Val c, w2) ->
  yaml_root lb c = Val [] ->
  fs_writeFile sys (resolve lb (dirDist lb) (L "manifest.json"))
               (stringify_manifest lb (mk_manifest [])) w2 = (Val tt, w3) ->
  main lb sys (w, t)
  = (Val (mk_manifest []),
     (w3, t ++ [EMkdirs (dirDist lb);
                ERead (resolve lb (dirDocs lb) (L "_index.yaml"));
                ELog (stringify_manifest lb (mk_manifest []));
                EWrite (resolve lb (dirDist lb) (L "manifest.json"))
                       (stringify_manifest lb (mk_manifest []))])).
Proof.
  intros Hm Hr Hy Hw. unfold main, bind, mkdirs, readFile, lift, console_log,
                        writeFile, ret.
  rewrite Hm, Hr, Hy. cbn [for_of ret]. unfold ret. rewrite Hw.
  rewrite <- !app_assoc. reflexivity.
Qed.

Lemma empty_index_builds_sample :
  main Sample.libs Sample.sys
       (Sample.start [(L "/repo/docs/_index.yaml", [])])
  = (Val (mk_manifest []),
     ([(L "/repo/dist/manifest.json", []); (L "/repo/docs/_index.yaml", [])],
      [] ++ [EMkdirs (L "/repo/dist"); ERead (L "/repo/docs/_index.yaml");
             ELog []; EWrite (L "/repo/dist/manifest.json") []])).
Proof.
  apply (empty_index_builds Sample.libs Sample.sys
           [(L "/repo/docs/_index.yaml", [])] [(L "/repo/docs/_index.yaml", [])]
           [(L "/repo/docs/_index.yaml", [])]
           [(L "/repo/dist/manifest.json", []); (L "/repo/docs/_index.yaml", [])]
           [] []); reflexivity.
Defined.

(** ** The other copies of the script *)

Lemma tweed_tag_not_recognized (l : str) :
  contains (L "tweed") l -> recognized (Some l) = false.
Proof.
  intros C. apply test_tweed in C. unfold recognized.
  repeat (apply orb_false_iff; split);
    (match goal with |- ?b = false => destruct b eqn:E; [|reflexivity] end);
    apply str_eqb_eq in E; subst l; vm_compute in C; discriminate C.
Qed.

(** X18.  In the copy of the script at lines 1-242 a code block is special
    only when its tag is exactly [tweed]: a tag that holds [tweed] and
    more, such as [tweed+fiddle], makes its renderer throw, where the
    current renderer makes an example. *)
Theorem rev1_needs_exact_tag (lb : Libs) (code l : str) (exs : list Rev1.example) :
  contains (L "tweed") l ->
  l <> L "tweed" ->
  Rev1.renderer_code lb code (Some l) exs
  = Throw (Error (L "Cannot highlight " ++ l)) /\
  test re_tweed (to_string (Some l)) = true.
Proof.
  intros C N. split; [|apply test_tweed; exact C].
  pose proof (tweed_tag_not_recognized l C) as R. unfold recognized in R.
  apply orb_false_iff in R as [R R4]. apply orb_false_iff in R as [R R3].
  unfold Rev1.renderer_code, Rev1.is_tweed.
  destruct (str_eqb l (L "tweed")) eqn:E; [apply str_eqb_eq in E; contradiction|].
  unfold Rev1.codeBlock, Rev1.highlight. rewrite R, R3, R4. reflexivity.
Qed.

Lemma rev1_needs_exact_tag_sample :
  contains (L "tweed") (L "tweed+fiddle") /\
  Rev1.renderer_code Sample.libs (L "a --- b") (Some (L "tweed+fiddle")) []
  = Throw (Error (L "Cannot highlight tweed+fiddle")).
Proof.
  assert (C : contains (L "tweed") (L "tweed+fiddle"))
    by (exists [], (L "+fiddle"); reflexivity).
  split; [exact C|].
  apply (rev1_needs_exact_tag Sample.libs (L "a --- b") (L "tweed+fiddle") [] C).
  discriminate.
Defined.

Lemma rev2_renderer_unknown (lb : Libs) (code : str) (lang : option str)
      (exs : list Rev1.example) :
  lang <> Some (L "tweed") -> lang <> Some (L "javascript") ->
  lang <> Some (L "typescript") ->
  Rev2.renderer_code lb code lang exs
  = Throw (Error (L "Cannot highlight " ++ to_string lang)).
Proof.
  intros N0 N1 N2. unfold Rev2.renderer_code, Rev1.is_tweed, Rev2.highlight.
  destruct lang as [l|]; [|reflexivity].
  destruct (str_eqb l (L "tweed")) eqn:E0;
    [apply str_eqb_eq in E0; subst l; contradiction|].
  destruct (str_eqb l (L "javascript")) eqn:E1;
    [apply str_eqb_eq in E1; subst l; contradiction|].
  destruct (str_eqb l (L "typescript")) eqn:E2;
    [apply str_eqb_eq in E2; subst l; contradiction|].
  reflexivity.
Qed.

(** X19.  In the copy of the script at lines 243-370 the highlighter knows
    [javascript] and [typescript] only: a code block with another tag
    that is not [tweed], or with no tag at all, makes the renderer throw
    that it cannot highlight it ([undefined] for no tag), and the
    document does not compile. *)
Theorem rev2_other_tags_throw (lb : Libs) (source code : str) (lang : option str) :
  In (TCode code lang) (lex lb source) ->
  lang <> Some (L "tweed") -> lang <> Some (L "javascript") ->
  lang <> Some (L "typescript") ->
  (forall exs, Rev2.renderer_code lb code lang exs
               = Throw (Error (L "Cannot highlight " ++ to_string lang))) /\
  exists e, Rev2.compileMarkdown lb source = Throw e.
Proof.
  intros I N0 N1 N2. split.
  - intros exs. apply rev2_renderer_unknown; assumption.
  - assert (R : forall exs, exists e, Rev2.render lb (lex lb source) exs = Throw e).
    { induction (lex lb source) as [|t ts IH]; intros exs; [destruct I|].
      cbn [Rev2.render].
      destruct (Rev2.render_token lb t exs) as [[h1 exs1]|e] eqn:E; [|simpl; eauto].
      cbn [rbind]. destruct I as [->|I].
      - cbn [Rev2.render_token] in E.
        rewrite rev2_renderer_unknown in E by assumption. discriminate E.
      - destruct (IH I exs1) as [e ->]. simpl. eauto. }
    destruct (R []) as [e He]. exists (marked_report e).
    unfold Rev2.compileMarkdown. rewrite He. reflexivity.
Qed.

Lemma rev2_other_tags_throw_sample :
  In (TCode (L "$ make") (Some (L "shell"))) (lex Sample.libs (L "links")) /\
  Rev2.renderer_code Sample.libs (L "$ make") (Some (L "shell")) []
  = Throw (Error (L "Cannot highlight shell")).
Proof.
  assert (I : In (TCode (L "$ make") (Some (L "shell"))) (lex Sample.libs (L "links")))
    by (right; right; left; reflexivity).
  split; [exact I|].
  refine (proj1 (rev2_other_tags_throw Sample.libs (L "links") (L "$ make")
                   (Some (L "shell")) I _ _ _) []); discriminate.
Defined.

(** X20.  For a tag other than [javascript] and [typescript] the current
    highlighter and the one at lines 1-242 return the same, shell code
    in which Prism returns a line that starts with a dollar sign apart.
    (For [javascript], for [typescript] and for code without a tag the two
    copies hand the code to Prism with different grammars.) *)
Theorem highlight_agrees_with_rev1 (lb : Libs) (code : option str) (l : str) :
  l <> L "javascript" -> l <> L "typescript" ->
  (l = L "shell" ->
   forall h, Rev1.highlight lb code (Some l) = Val h ->
             forall line, In line (split_str [LF] h) -> forall r, line <> "$"%char :: r) ->
  highlight lb code (Some l) = Rev1.highlight lb code (Some l).
Proof.
  intros N1 N2 H. unfold highlight, Rev1.highlight in *.
  destruct (str_eqb l (L "javascript")) eqn:E1;
    [apply str_eqb_eq in E1; contradiction|].
  destruct (str_eqb l (L "typescript")) eqn:E2;
    [apply str_eqb_eq in E2; contradiction|].
  cbn [orb] in *.
  destruct (str_eqb l (L "shell")) eqn:E; [|reflexivity].
  apply str_eqb_eq in E. specialize (H E).
  destruct (prism_call lb code g_bash) as [h|e]; [|reflexivity].
  cbn [rbind]. f_equal. rewrite <- (join_split_lines h) at 2. f_equal.
  rewrite <- (map_id (split_str [LF] h)) at 2.
  apply map_ext_in. intros line I. apply shell_line_other. exact (H h eq_refl line I).
Qed.

Lemma highlight_agrees_with_rev1_sample :
  highlight Sample.libs (Some (L "ls -l")) (Some (L "shell"))
  = Rev1.highlight Sample.libs (Some (L "ls -l")) (Some (L "shell")).
Proof.
  apply highlight_agrees_with_rev1; [discriminate | discriminate |].
  intros _ h Hh l I r E. vm_compute in Hh. injection Hh as <-.
  destruct I as [<-|[]]. discriminate E.
Defined.

(** ** The two variants of an example *)

(** The first split point of a scan: either the separator matches nowhere
    and the text is one piece, or the text up to the first match is the
    first piece and the scan goes on after the match. *)
Lemma split_go_first (m : str -> option str) (s cur : str) :
  (forall x t, m x = Some t -> exists u, x = u ++ t /\ u <> []) ->
  split_go m s 0 cur = [rev cur ++ s] \/
  exists a x t,
    s = a ++ x /\ m x = Some t /\
    (forall a1 c a2, a = a1 ++ c :: a2 -> m (c :: a2 ++ x) = None) /\
    split_go m s 0 cur = (rev cur ++ a) :: split_go m t 0 [].
Proof.
  intros Hm. revert cur. induction s as [|c s IH]; intros cur.
  - left. cbn. rewrite app_nil_r. reflexivity.
  - cbn [split_go]. destruct (m (c :: s)) as [t|] eqn:E.
    + right. destruct (Hm _ _ E) as (u & Eu & Nu).
      destruct u as [|d u]; [contradiction|]. injection Eu as <- ->.
      exists [], (c :: u ++ t), t. rewrite app_nil_r.
      split; [reflexivity|]. split; [exact E|].
      split; [intros [|? ?] ? ? Ea; discriminate Ea|].
      replace (length (c :: u ++ t) - length t) with (S (length u))
        by (simpl; rewrite length_app; lia).
      rewrite split_go_skip. reflexivity.
    + destruct (IH (c :: cur)) as [H|(a & x & t & -> & Hx & Ha & H)].
      * left. rewrite H. cbn [rev]. rewrite <- app_assoc. reflexivity.
      * right. exists (c :: a), x, t. split; [reflexivity|]. split; [exact Hx|].
        split.
        -- intros [|d a1] c' a2 Ea; injection Ea as <- Ea.
           ++ subst a. exact E.
           ++ exact (Ha a1 c' a2 Ea).
        -- rewrite H. cbn [rev]. rewrite <- app_assoc. reflexivity.
Qed.

Lemma match_at_separator_consumes (x t : str) :
  match_at re_separator x = Some t -> exists u, x = u ++ t /\ u <> [].
Proof.
  intros H. apply match_at_sound in H as (u & -> & M). exists u.
  split; [reflexivity|]. intros ->.
  unfold re_separator in M. apply matches_seq_inv in M as (a & b & E & _ & M).
  apply matches_seq_inv in M as (d & b' & -> & Md & _).
  assert (Ed : d = L "---").
  { apply ends_complete with (e := []) in Md. rewrite app_nil_r in Md.
    change (LitS "---") with (Lit "-"%char (L "--")) in Md.
    rewrite ends_Lit in Md. change ("-"%char :: L "--") with (L "---") in Md.
    destruct (strip_prefix (L "---") d) as [r|] eqn:Er; [|destruct Md].
    destruct Md as [->|[]]. apply strip_prefix_some in Er.
    rewrite app_nil_r in Er. exact Er. }
  subst d. destruct a; discriminate E.
Qed.

(** X21.  The two variants of an example carry no white space at the
    separator: the first part of the body of a special code block does
    not end with white space and the second does not start with it. *)
Theorem variants_have_no_space_at_separator (code js ts : str) (more : list str) :
  split_re re_separator code = js :: ts :: more ->
  (forall r c, js = r ++ [c] -> is_space c = false) /\
  (forall c r, ts = c :: r -> is_space c = false).
Proof.
  unfold split_re. intros H. destruct code as [|c0 code]; [discriminate H|].
  rewrite js_split_cons in H.
  destruct (split_go_first (match_at re_separator) (c0 :: code) []
                           match_at_separator_consumes)
    as [E|(a & x & t & Ec & Hx & Ha & E)]; rewrite E in H; [discriminate H|].
  cbn [rev app] in H. injection H as <- Ht.
  pose proof Hx as Hx'. rewrite match_at_separator in Hx'.
  destruct (strip_prefix (L "---") (trim_start x)) as [y|] eqn:Ey; [|discriminate Hx'].
  injection Hx' as <-. split.
  - intros r c -> . destruct (is_space c) eqn:Es; [|reflexivity].
    pose proof (Ha r c [] eq_refl) as N. cbn [app] in N.
    rewrite match_at_separator in N. cbn [trim_start] in N.
    rewrite Es, Ey in N. discriminate N.
  - intros c r ->.
    destruct (split_go_first (match_at re_separator) (trim_start y) []
                             match_at_separator_consumes)
      as [E2|(a2 & x2 & t2 & Ec2 & _ & _ & E2)]; rewrite E2 in Ht;
      cbn [rev app] in Ht; injection Ht as Ht _.
    + exact (trim_start_head _ _ _ Ht).
    + subst a2. cbn [app] in Ec2. exact (trim_start_head _ _ _ Ec2).
Qed.

Lemma variants_have_no_space_at_separator_sample :
  split_re re_separator (L "let a  " ++ [LF] ++ L "---" ++ [LF; LF] ++ L "  let b")
  = L "let a" :: L "let b" :: [] /\
  (forall r c, L "let a" = r ++ [c] -> is_space c = false) /\
  (forall c r, L "let b" = c :: r -> is_space c = false).
Proof.
  assert (H : split_re re_separator
                (L "let a  " ++ [LF] ++ L "---" ++ [LF; LF] ++ L "  let b")
              = L "let a" :: L "let b" :: []) by reflexivity.
  split; [exact H|]. exact (variants_have_no_space_at_separator _ _ _ _ H).
Defined.
